(** * Email extractor (app.py): extraction, company label and CSV rows

    A shallow embedding of the pure routines of [app.py]:
    [extract_emails_from_text], [extract_company_from_email] and the CSV
    that [download_csv_direct] sends and [save_to_csv] writes, with the
    parts of the Python runtime they call ([re.findall] on the fixed pattern,
    [str.split], [str.lower], [str.capitalize], [sorted], [csv.writer]).
    Further on: [allowed_file], the decoding of an upload in
    [extract_emails], and the selection of files in [get_history]. *)

From Stdlib Require Import String Ascii.
From Stdlib Require Strings.Byte.
From stdpp Require Import base decidable numbers list gmap sorting.

Local Open Scope N_scope.

(** ** Python strings

    A [str] is a sequence of Unicode code points. *)

Abbreviation pystr := (list N).

(** Literal from an 8-bit string, for readable examples. *)
Definition str (s : string) : pystr :=
  map N_of_ascii (list_ascii_of_string s).

Definition is_ascii (c : N) : bool := c <? 128.
Definition isascii (s : pystr) : bool := forallb is_ascii s.

Definition ascii_lower (c : N) : N :=
  if (65 <=? c) && (c <=? 90) then c + 32 else c.
Definition ascii_upper (c : N) : N :=
  if (97 <=? c) && (c <=? 122) then c - 32 else c.

(** The case mappings of the Unicode database, which [str.lower] and
    [str.capitalize] consult for a string that has a code point above 127.
    They are not part of the program; the development is parametric in them. *)
Record unicode_case := {
  unicode_lower : pystr → pystr;
  unicode_capitalize : pystr → pystr
}.

(** Tables that leave every non-ASCII string alone; used to run closed
    examples, all of which are ASCII. *)
Definition ascii_only : unicode_case :=
  {| unicode_lower := id; unicode_capitalize := id |}.

(** [s.lower()] *)
Definition py_lower (U : unicode_case) (s : pystr) : pystr :=
  if isascii s then map ascii_lower s else unicode_lower U s.

(** [s.capitalize()] *)
Definition py_capitalize (U : unicode_case) (s : pystr) : pystr :=
  if isascii s then
    match s with
    | [] => []
    | c :: r => ascii_upper c :: map ascii_lower r
    end
  else unicode_capitalize U s.

(** [a < b] on [str]: lexicographic on code points. *)
Fixpoint str_ltb (a b : pystr) : bool :=
  match a, b with
  | _, [] => false
  | [], _ :: _ => true
  | x :: a', y :: b' =>
      if x <? y then true else if y <? x then false else str_ltb a' b'
  end.

(** [s.split(sep)] for a one-character separator: never empty. *)
Fixpoint py_split (sep : N) (s : pystr) : list pystr :=
  match s with
  | [] => [[]]
  | c :: s' =>
      if c =? sep then [] :: py_split sep s'
      else match py_split sep s' with
           | h :: t => (c :: h) :: t
           | [] => [[c]]
           end
  end.

(** Exceptions the modelled code can meet, and results of fallible steps. *)
Inductive exn := IndexError.

Inductive result (A : Type) :=
  | Ok (a : A)
  | Raise (e : exn).
Arguments Ok {A} a.
Arguments Raise {A} e.

#[global] Instance result_bind : MBind result := λ A B k r,
  match r with
  | Ok a => k a
  | Raise e => Raise e
  end.

(** [l[i]] *)
Definition py_index {A} (l : list A) (i : nat) : result A :=
  match l !! i with
  | Some a => Ok a
  | None => Raise IndexError
  end.

(** [try: body  except: return dflt] *)
Definition try_except {A} (body : result A) (dflt : A) : A :=
  match body with
  | Ok a => a
  | Raise _ => dflt
  end.

(** [sorted(l, key=key)]: a stable sort comparing keys with [<]. *)
Section Sorted.
Context {A : Type} (key : A → pystr).

Fixpoint insert_by (x : A) (l : list A) : list A :=
  match l with
  | [] => [x]
  | y :: l' =>
      if str_ltb (key y) (key x) then y :: insert_by x l'
      else x :: y :: l'
  end.

Definition sorted (l : list A) : list A := foldr insert_by [] l.
End Sorted.

(** ** The regular expression engine, for patterns that are a sequence of
    greedily repeated character classes *)

(** A character class: a union of inclusive code-point ranges. *)
Definition charset := list (N * N).

Definition in_charset (cs : charset) (c : N) : bool :=
  existsb (λ r, (r.1 <=? c) && (c <=? r.2)) cs.

(** One pattern item [cls{rmin,rmax}], [rmax = None] meaning unbounded. *)
Record item := Item {
  cls : charset;
  rmin : nat;
  rmax : option nat
}.

Definition regex := list item.

(** The longest run of class characters at the head of [s], capped at
    [limit]. *)
Fixpoint count_run (cs : charset) (limit : option nat) (s : pystr) : nat :=
  match limit, s with
  | Some O, _ => O
  | _, [] => O
  | _, c :: s' =>
      if in_charset cs c then S (count_run cs (pred <$> limit) s') else O
  end.

(** Greedy repetition: after taking [n] characters try the rest of the
    pattern ([k]); on failure give one character back, down to [lo]. *)
Fixpoint backtrack (k : pystr → option nat) (lo : nat) (s : pystr) (n : nat)
  : option nat :=
  if (n <? lo)%nat then None
  else match k (drop n s) with
       | Some m => Some (n + m)%nat
       | None =>
           match n with
           | O => None
           | S n' => backtrack k lo s n'
           end
       end.

(** Match the pattern at the head of [s]; the length of the match. *)
Fixpoint sre_match (p : regex) (s : pystr) : option nat :=
  match p with
  | [] => Some O
  | it :: p' =>
      backtrack (sre_match p') (rmin it) s (count_run (cls it) (rmax it) s)
  end.

(** [re.findall]: scan left to right; a match is reported and the scan
    resumes right after it ([skip] counts the characters still covered by
    the last match). *)
Fixpoint findall_from (p : regex) (s : pystr) (skip : nat) : list pystr :=
  match s with
  | [] =>
      match skip, sre_match p [] with
      | O, Some _ => [[]]
      | _, _ => []
      end
  | _ :: s' =>
      match skip with
      | S k => findall_from p s' k
      | O =>
          match sre_match p s with
          | Some m => take m s :: findall_from p s' (pred m)
          | None => findall_from p s' O
          end
      end
  end.

Definition re_findall (p : regex) (s : pystr) : list pystr :=
  findall_from p s O.

(** [r"[a-zA-Z0-9._%+-]+@[a-zA-Z0-9.-]+\.[a-zA-Z]{2,}"] *)
Definition alpha : charset := [(97, 122); (65, 90)].
Definition local_chars : charset :=
  alpha ++ [(48, 57); (46, 46); (95, 95); (37, 37); (43, 43); (45, 45)].
Definition domain_chars : charset := alpha ++ [(48, 57); (46, 46); (45, 45)].

Definition lit (c : N) : item := Item [(c, c)] 1 (Some 1%nat).
Definition plus (cs : charset) : item := Item cs 1 None.
Definition at_least (n : nat) (cs : charset) : item := Item cs n None.

Definition email_pattern : regex :=
  [plus local_chars; lit 64; plus domain_chars; lit 46; at_least 2 alpha].

(** ** csv.writer, default dialect

    Delimiter comma (44), quote character (34), minimal quoting with doubled
    quote characters, line terminator CR LF (13 10). *)

Definition csv_special (c : N) : bool :=
  (c =? 44) || (c =? 34) || (c =? 13) || (c =? 10).

Definition csv_field (f : pystr) : pystr :=
  if existsb csv_special f then
    34 :: flat_map (λ c, if c =? 34 then [34; 34] else [c]) f ++ [34]
  else f.

Fixpoint csv_join (fields : list pystr) : pystr :=
  match fields with
  | [] => []
  | [f] => f
  | f :: fields' => f ++ 44 :: csv_join fields'
  end.

Definition csv_record (row : list pystr) : pystr :=
  match row with
  | [[]] => [34; 34]
  | _ => csv_join (map csv_field row)
  end ++ [13; 10].

(** [writer.writerow(row)], the writer appending to the buffer [output]. *)
Definition writerow (output : pystr) (row : list pystr) : pystr :=
  output ++ csv_record row.

(** ** [str.encode('utf-8')]

    [None] stands for [UnicodeEncodeError]: a surrogate code point has no
    UTF-8 form (and nothing above 10FFFF is a code point). *)

Definition byte_of_N (n : N) : Byte.byte := byte_of_ascii (ascii_of_N n).

Definition utf8_encode_char (c : N) : option (list Byte.byte) :=
  if c <? 128 then Some [byte_of_N c]
  else if c <? 2048 then
    Some [byte_of_N (192 + c / 64); byte_of_N (128 + c mod 64)]
  else if (55296 <=? c) && (c <=? 57343) then None
  else if c <? 65536 then
    Some [byte_of_N (224 + c / 64 / 64);
          byte_of_N (128 + (c / 64) mod 64);
          byte_of_N (128 + c mod 64)]
  else if c <=? 1114111 then
    Some [byte_of_N (240 + c / 64 / 64 / 64);
          byte_of_N (128 + (c / 64 / 64) mod 64);
          byte_of_N (128 + (c / 64) mod 64);
          byte_of_N (128 + c mod 64)]
  else None.

Definition utf8_encode (s : pystr) : option (list Byte.byte) :=
  mjoin <$> mapM utf8_encode_char s.

(** ** app.py *)

Section App.
Variable U : unicode_case.

(** One turn of the loop over [emails]; the state is
    [(seen, unique_emails)]. *)
Definition dedup_step (st : gset pystr * list pystr) (email : pystr)
  : gset pystr * list pystr :=
  let email_lower := py_lower U email in
  if decide (email_lower ∉ st.1) then
    ({[email_lower]} ∪ st.1, st.2 ++ [email])
  else st.

(** [unique_emails] when the loop over [emails] ends. *)
Definition unique_of (emails : list pystr) : list pystr :=
  (foldl dedup_step (∅, []) emails).2.

Definition extract_emails_from_text (text : pystr) : list pystr :=
  let emails := re_findall email_pattern text in
  let unique_emails := unique_of emails in
  sorted (py_lower U) unique_emails.

(** The body of the [try] block. *)
Definition company_body (email : pystr) : result pystr :=
  domain ← py_index (py_split 64 email) 1;
  company ← py_index (py_split 46 domain) 0;
  Ok (py_capitalize U company).

Definition extract_company_from_email (email : pystr) : pystr :=
  try_except (company_body email) [].

(** The header row and the loop writing one row per email, shared by
    [save_to_csv] and [download_csv_direct]. *)
Definition csv_header : list pystr := [str "Email"; str "Company/Domain"].

Definition write_email_row (output : pystr) (email : pystr) : pystr :=
  let company := extract_company_from_email email in
  writerow output [email; company].

(** The text written to the file by [save_to_csv]. *)
Definition save_to_csv (emails : list pystr) : pystr :=
  foldl write_email_row (writerow [] csv_header) emails.

(** [download_csv_direct], for a request whose [emails] is a list of
    strings: the bytes written to [mem], that is the UTF-8 encoding of
    [output.getvalue()]; [None] when [encode] raises, which the route does
    not catch. *)
Definition download_csv_direct (emails : list pystr)
  : option (list Byte.byte) :=
  let output := foldl write_email_row (writerow [] csv_header) emails in
  utf8_encode output.
End App.

(** ** More of the runtime: [rsplit], [endswith], reversed sort, decoders *)

(** The split of [s] at its last [sep], if it has one. *)
Fixpoint rsplit_last (sep : N) (s : pystr) : option (pystr * pystr) :=
  match s with
  | [] => None
  | c :: s' =>
      match rsplit_last sep s' with
      | Some (a, b) => Some (c :: a, b)
      | None => if c =? sep then Some ([], s') else None
      end
  end.

(** [s.rsplit(sep, 1)] *)
Definition py_rsplit1 (sep : N) (s : pystr) : list pystr :=
  match rsplit_last sep s with
  | Some (a, b) => [a; b]
  | None => [s]
  end.

(** [s.endswith(suffix)] *)
Definition py_endswith (suffix s : pystr) : bool :=
  (length suffix <=? length s)%nat &&
  bool_decide (drop (length s - length suffix) s = suffix).

(** [sorted(l, reverse=True)]: the list is reversed, sorted, and reversed
    again, which keeps equal elements in their original order. *)
Definition sorted_reverse {A} (key : A → pystr) (l : list A) : list A :=
  rev (sorted key (rev l)).









(** [raw.decode('latin-1')]: every byte is the code point of its value. *)
Definition latin1_decode (raw : list Byte.byte) : pystr := map Byte.to_N raw.

(** [raw.decode('utf-8')], strict: [None] stands for [UnicodeDecodeError].
    Overlong forms, surrogates and code points above 10FFFF are refused. *)
Definition is_cont (c : N) : bool := (128 <=? c) && (c <=? 191).

Fixpoint utf8_decode (raw : list Byte.byte) : option pystr :=
  match raw with
  | [] => Some []
  | b0 :: r1 =>
      let c0 := Byte.to_N b0 in
      if c0 <? 128 then cons c0 <$> utf8_decode r1
      else if (194 <=? c0) && (c0 <=? 223) then
        match r1 with
        | b1 :: r2 =>
            let c1 := Byte.to_N b1 in
            if is_cont c1 then
              cons ((c0 - 192) * 64 + (c1 - 128)) <$> utf8_decode r2
            else None
        | _ => None
        end
      else if (224 <=? c0) && (c0 <=? 239) then
        match r1 with
        | b1 :: b2 :: r3 =>
            let c1 := Byte.to_N b1 in
            let c2 := Byte.to_N b2 in
            if ((if c0 =? 224 then 160 else 128) <=? c1) &&
               (c1 <=? (if c0 =? 237 then 159 else 191)) && is_cont c2 then
              cons (((c0 - 224) * 64 + (c1 - 128)) * 64 + (c2 - 128))
                <$> utf8_decode r3
            else None
        | _ => None
        end
      else if (240 <=? c0) && (c0 <=? 244) then
        match r1 with
        | b1 :: b2 :: b3 :: r4 =>
            let c1 := Byte.to_N b1 in
            let c2 := Byte.to_N b2 in
            let c3 := Byte.to_N b3 in
            if ((if c0 =? 240 then 144 else 128) <=? c1) &&
               (c1 <=? (if c0 =? 244 then 143 else 191)) &&
               is_cont c2 && is_cont c3 then
              cons ((((c0 - 240) * 64 + (c1 - 128)) * 64 + (c2 - 128)) * 64
                    + (c3 - 128))
                <$> utf8_decode r4
            else None
        | _ => None
        end
      else None
  end.

(** The codecs whose tables are not part of the program: [cp1252], and
    [utf-8] with [errors='ignore']. *)
Record codecs := {
  cp1252_decode : list Byte.byte → option pystr;
  utf8_decode_ignore : list Byte.byte → pystr
}.

Inductive encoding := Utf8 | Latin1 | Cp1252 | Iso8859_1.

(** [raw.decode(encoding)] *)
Definition py_decode (C : codecs) (enc : encoding) (raw : list Byte.byte)
  : option pystr :=
  match enc with
  | Utf8 => utf8_decode raw
  | Latin1 | Iso8859_1 => Some (latin1_decode raw)
  | Cp1252 => cp1252_decode C raw
  end.

(** ** More of app.py *)

(** [ALLOWED_EXTENSIONS] *)
Definition ALLOWED_EXTENSIONS : gset pystr :=
  list_to_set (str <$> [
    "txt"; "csv"; "json"; "html"; "htm"; "xml"; "log"; "md";
    "js"; "py"; "php"; "sql"; "yaml"; "yml"; "ini"; "cfg";
    "conf"; "tsv"; "rtf"; "tex"; "sh"; "bat"; "ps1"
  ]%string).

Definition allowed_file (U : unicode_case) (filename : pystr) : result bool :=
  if decide (46 ∉ filename) then Ok true
  else
    ext ← py_index (py_rsplit1 46 filename) 1;
    Ok (bool_decide (py_lower U ext ∈ ALLOWED_EXTENSIONS)).

(** The decoding of the uploaded bytes in [extract_emails]: the loop over
    [encodings] ([content] is [None] until a decoding succeeds), then the
    fallback. *)
Definition encodings : list encoding := [Utf8; Latin1; Cp1252; Iso8859_1].

Fixpoint decode_loop (C : codecs) (encs : list encoding) (raw : list Byte.byte)
  : option pystr :=
  match encs with
  | [] => None
  | enc :: encs' =>
      match py_decode C enc raw with
      | Some content => Some content
      | None => decode_loop C encs' raw
      end
  end.

Definition read_content (C : codecs) (raw : list Byte.byte) : pystr :=
  match decode_loop C encodings raw with
  | Some content => content
  | None => utf8_decode_ignore C raw
  end.

(** The emails [extract_emails] computes from the uploaded bytes. *)
Definition extract_emails_of_upload (U : unicode_case) (C : codecs)
  (raw : list Byte.byte) : list pystr :=
  extract_emails_from_text U (read_content C raw).

(** [get_history].  The folder is given by its listing ([None] when it does
    not exist); [json_load jf] is the value [json.load] returns for the
    file, [None] when opening or parsing raises; [as_dict] gives the mapping
    of a value that is a [dict], the only values with a [get] method. *)
Section History.
Context {J : Type}.
Variable json_load : pystr → option J.
Variable as_dict : J → option (gmap pystr J).
Variable j_str : pystr → J.
Variable j_int : Z → J.

Record history_entry := HistoryEntry {
  h_filename : pystr;
  h_source : J;
  h_total : J;
  h_time : J
}.

(** [data.get(key, dflt)] *)
Definition dict_get (data : gmap pystr J) (key : pystr) (dflt : J) : J :=
  default dflt (data !! key).

(** The body of the [try] block for one file: [None] when it raises. *)
Definition history_entry_of (jf : pystr) : option history_entry :=
  data ← json_load jf;
  d ← as_dict data;
  Some (HistoryEntry jf
          (dict_get d (str "source_file") (j_str (str "Unknown")))
          (dict_get d (str "total_emails") (j_int 0))
          (dict_get d (str "extraction_time") (j_str []))).

Definition history_step (extractions : list history_entry) (jf : pystr)
  : list history_entry :=
  match history_entry_of jf with
  | Some e => extractions ++ [e]
  | None => extractions
  end.

Definition get_history (listing : option (list pystr))
  : list history_entry :=
  match listing with
  | None => []
  | Some files =>
      let json_files := filter (λ f, py_endswith (str ".json") f = true) files in
      foldl history_step [] (take 20 (sorted_reverse id json_files))
  end.
End History.

(** ** Vocabulary of the specification *)

(** [w] occurs in [text] as a contiguous substring. *)
Definition substring (w text : pystr) : Prop :=
  ∃ pre suf, text = pre ++ w ++ suf.

Definition is_letter (c : N) : Prop := 97 ≤ c ≤ 122 ∨ 65 ≤ c ≤ 90.
Definition is_digit (c : N) : Prop := 48 ≤ c ≤ 57.
Definition local_char (c : N) : Prop :=
  is_letter c ∨ is_digit c ∨ c ∈ str "._%+-".
Definition domain_char (c : N) : Prop :=
  is_letter c ∨ is_digit c ∨ c ∈ str ".-".

(** A full match of [[a-zA-Z0-9._%+-]+@[a-zA-Z0-9.-]+\.[a-zA-Z]{2,}]. *)
Definition is_email (e : pystr) : Prop :=
  ∃ l d t,
    e = l ++ str "@" ++ d ++ str "." ++ t ∧
    l ≠ [] ∧ Forall local_char l ∧
    d ≠ [] ∧ Forall domain_char d ∧
    (2 ≤ length t)%nat ∧ Forall is_letter t.

(** The language of a pattern: the words it matches in full. *)
Definition in_cls (it : item) (c : N) : Prop := in_charset (cls it) c = true.

Definition within (limit : option nat) (n : nat) : Prop :=
  match limit with
  | Some m => (n ≤ m)%nat
  | None => True
  end.

Fixpoint matches (p : regex) (w : pystr) : Prop :=
  match p with
  | [] => w = []
  | it :: p' =>
      ∃ u v, w = u ++ v ∧ Forall (in_cls it) u ∧
        (rmin it ≤ length u)%nat ∧ within (rmax it) (length u) ∧ matches p' v
  end.

(** The part of [s] before the first [sep] (all of [s] when it has none) and
    the part after it (empty when it has none). *)
Fixpoint before (sep : N) (s : pystr) : pystr :=
  match s with
  | [] => []
  | c :: s' => if c =? sep then [] else c :: before sep s'
  end.

Fixpoint after (sep : N) (s : pystr) : pystr :=
  match s with
  | [] => []
  | c :: s' => if c =? sep then s' else after sep s'
  end.

(** Lexicographic order on code points. *)
Inductive lex_lt : pystr → pystr → Prop :=
  | lex_lt_nil y b : lex_lt [] (y :: b)
  | lex_lt_head x y a b : x < y → lex_lt (x :: a) (y :: b)
  | lex_lt_tail x a b : lex_lt a b → lex_lt (x :: a) (x :: b).

Definition lex_le (a b : pystr) : Prop := a = b ∨ lex_lt a b.

(** Ascending by key. *)
Definition key_le {A} (key : A → pystr) (a b : A) : Prop :=
  lex_le (key a) (key b).

(** [r] is the first entry of [l] among those with its key. *)
Definition first_of_key {A} (key : A → pystr) (l : list A) (r : A) : Prop :=
  ∃ i, l !! i = Some r ∧
    ∀ j e, (j < i)%nat → l !! j = Some e → key e ≠ key r.

(** [s.capitalize()] on an ASCII string. *)
Definition ascii_capitalize (s : pystr) : pystr :=
  match s with
  | [] => []
  | c :: r => ascii_upper c :: map ascii_lower r
  end.

(** A character that no class of the email pattern contains: neither a
    local-part character (which covers the domain and letter classes) nor
    [@]. *)
Definition separator (c : N) : Prop := ¬ local_char c ∧ c ≠ 64.

(** A code point with a UTF-8 form: any but the surrogates. *)
Definition encodable (c : N) : Prop := c < 55296 ∨ 57344 ≤ c ≤ 1114111.

(** The CSV text of a list of emails: the header record, then for each
    email the record of the email and its company label. *)
Definition csv_text (U : unicode_case) (emails : list pystr) : pystr :=
  csv_record csv_header ++
  mjoin ((λ e, csv_record [e; extract_company_from_email U e]) <$> emails).

(** One line of the CSV file with both fields written as they are. *)
Definition csv_line (U : unicode_case) (e : pystr) : pystr :=
  e ++ [44] ++ extract_company_from_email U e ++ [13; 10].

(** Two texts with the same ASCII characters in the same order, where each
    non-ASCII character of the first stands for a non-empty run of non-ASCII
    characters of the second (a decoded UTF-8 text against the Latin-1
    reading of the same bytes). *)
Inductive skel : pystr → pystr → Prop :=
  | skel_nil : skel [] []
  | skel_ascii c s s' :
      is_ascii c = true → skel s s' → skel (c :: s) (c :: s')
  | skel_high c g s s' :
      is_ascii c = false → g ≠ [] → Forall (λ x, is_ascii x = false) g →
      skel s s' → skel (c :: s) (g ++ s').

(** A pattern whose classes hold ASCII characters only. *)
Definition ascii_pattern (p : regex) : Prop :=
  Forall (λ it, ∀ c, in_charset (cls it) c = true → is_ascii c = true) p.

(** A character that no class of the pattern [p] contains. *)
Definition outside (p : regex) (c : N) : Prop :=
  Forall (λ it, in_charset (cls it) c = false) p.

(** ** The matcher against the language of the pattern *)

Lemma count_run_le cs lim s : (count_run cs lim s ≤ length s)%nat.
Proof.
  revert lim. induction s as [|c s IH]; intros [[|m]|]; simpl; try lia;
    destruct (in_charset cs c); simpl; try lia.
  - specialize (IH (Some m)). simpl in IH. lia.
  - specialize (IH None). simpl in IH. lia.
Qed.

Lemma count_run_within cs lim s : within lim (count_run cs lim s).
Proof.
  revert lim. induction s as [|c s IH]; intros [[|m]|]; simpl; try lia;
    destruct (in_charset cs c); simpl; try lia.
  specialize (IH (Some m)). simpl in IH. lia.
Qed.

Lemma count_run_Forall cs lim s :
  Forall (λ c, in_charset cs c = true) (take (count_run cs lim s) s).
Proof.
  revert lim. induction s as [|c s IH]; intros [[|m]|]; simpl;
    try constructor; destruct (in_charset cs c) eqn:E; simpl;
    try constructor; auto.
Qed.

Lemma count_run_max cs lim u rest :
  Forall (λ c, in_charset cs c = true) u → within lim (length u) →
  (length u ≤ count_run cs lim (u ++ rest))%nat.
Proof.
  revert lim. induction u as [|c u IH]; intros lim Hu Hlim; simpl; [lia|].
  inversion Hu as [|? ? Hc Hu']; subst.
  destruct lim as [[|m]|]; simpl in *; try lia; rewrite Hc.
  - specialize (IH (Some m) Hu'). simpl in IH. lia.
  - specialize (IH None Hu' I). simpl in IH. lia.
Qed.

Lemma backtrack_Some k lo s n r :
  backtrack k lo s n = Some r →
  ∃ j m, (lo ≤ j ≤ n)%nat ∧ k (drop j s) = Some m ∧ r = (j + m)%nat.
Proof.
  induction n as [|n IH]; simpl.
  - destruct (0 <? lo)%nat eqn:E; [done|].
    apply Nat.ltb_ge in E.
    destruct (k (drop 0 s)) as [m|] eqn:Ek; [|done].
    intros [= <-]. exists 0%nat, m. split; [lia|done].
  - destruct (S n <? lo)%nat eqn:E; [done|].
    apply Nat.ltb_ge in E.
    destruct (k (drop (S n) s)) as [m|] eqn:Ek.
    + intros [= <-]. exists (S n), m. split; [lia|done].
    + intros H. destruct (IH H) as (j & m & Hj & Hk & ->).
      exists j, m. split; [lia|done].
Qed.

Lemma backtrack_is_Some k lo s n j :
  (lo ≤ j ≤ n)%nat → is_Some (k (drop j s)) → is_Some (backtrack k lo s n).
Proof.
  induction n as [|n IH]; intros Hj Hk; simpl.
  - assert (j = 0%nat) as -> by lia.
    destruct (0 <? lo)%nat eqn:E; [apply Nat.ltb_lt in E; lia|].
    destruct Hk as [m Hm]. rewrite Hm. eauto.
  - destruct (S n <? lo)%nat eqn:E; [apply Nat.ltb_lt in E; lia|].
    destruct (k (drop (S n) s)) as [m|] eqn:Ek; [eauto|].
    apply IH; [|done].
    destruct (decide (j = S n)) as [->|]; [|lia].
    rewrite Ek in Hk. by destruct Hk.
Qed.

Lemma within_le lim n j : within lim n → (j ≤ n)%nat → within lim j.
Proof. destruct lim; simpl; [lia|done]. Qed.

Lemma sre_match_sound p s m :
  sre_match p s = Some m → (m ≤ length s)%nat ∧ matches p (take m s).
Proof.
  revert s m. induction p as [|it p IH]; intros s m; simpl.
  - intros [= <-]. split; [lia|]. by rewrite take_0.
  - intros H. apply backtrack_Some in H as (j & m' & Hj & Hk & ->).
    apply IH in Hk as [Hlen Hm].
    pose proof (count_run_le (cls it) (rmax it) s) as Hle.
    rewrite length_drop in Hlen. split; [lia|].
    exists (take j s), (take m' (drop j s)).
    split; [by rewrite take_take_drop|].
    split.
    { replace (take j s) with
        (take j (take (count_run (cls it) (rmax it) s) s)).
      - apply Forall_take, count_run_Forall.
      - rewrite take_take. f_equal. lia. }
    rewrite length_take.
    split; [lia|]. split; [|done].
    apply (within_le _ (count_run (cls it) (rmax it) s));
      [apply count_run_within|lia].
Qed.

Lemma sre_match_complete p w rest :
  matches p w → is_Some (sre_match p (w ++ rest)).
Proof.
  revert w rest. induction p as [|it p IH]; intros w rest; simpl; [eauto|].
  intros (u & v & -> & Hu & Hmin & Hmax & Hv).
  rewrite <-(assoc_L (++)).
  apply (backtrack_is_Some _ _ _ _ (length u)).
  - split; [done|]. by apply count_run_max.
  - rewrite drop_app_length. by apply IH.
Qed.

(** ** The scan of [re.findall] *)

Lemma findall_from_elem p s skip e :
  e ∈ findall_from p s skip →
  ∃ pre suf, s = pre ++ e ++ suf ∧ sre_match p (e ++ suf) = Some (length e).
Proof.
  revert skip. induction s as [|c s IH]; intros skip; simpl.
  - destruct skip; [|by intros ?%elem_of_nil].
    destruct (sre_match p []) as [m|] eqn:E; [|by intros ?%elem_of_nil].
    intros ->%list_elem_of_singleton. exists [], []. split; [done|].
    pose proof (sre_match_sound _ _ _ E) as [Hm _]. simpl in *.
    rewrite E. f_equal. lia.
  - destruct skip as [|k].
    + destruct (sre_match p (c :: s)) as [m|] eqn:E.
      * intros [->|Hin]%elem_of_cons.
        -- exists [], (drop m (c :: s)).
           pose proof (sre_match_sound _ _ _ E) as [Hm _].
           rewrite take_drop, length_take. split; [done|].
           rewrite E. f_equal. lia.
        -- apply IH in Hin as (pre & suf & -> & H).
           by exists (c :: pre), suf.
      * intros Hin. apply IH in Hin as (pre & suf & -> & H).
        by exists (c :: pre), suf.
    + intros Hin. apply IH in Hin as (pre & suf & -> & H).
      by exists (c :: pre), suf.
Qed.

Lemma findall_from_nil p s skip :
  (∀ pre suf, s = pre ++ suf → sre_match p suf = None) →
  findall_from p s skip = [].
Proof.
  revert skip. induction s as [|c s IH]; intros skip H; simpl.
  - rewrite (H [] []) by done. by destruct skip.
  - assert (∀ k, findall_from p s k = []) as IH'.
    { intros k. apply IH. intros pre suf ->. by apply (H (c :: pre)). }
    destruct skip; [|done]. by rewrite (H [] (c :: s)).
Qed.

Lemma findall_from_nil_inv p s :
  findall_from p s 0 = [] →
  ∀ pre suf, s = pre ++ suf → sre_match p suf = None.
Proof.
  induction s as [|c s IH]; simpl.
  - destruct (sre_match p []) eqn:E; [done|].
    intros _ pre suf Hs. symmetry in Hs.
    by apply app_eq_nil in Hs as [-> ->].
  - destruct (sre_match p (c :: s)) eqn:E; [done|].
    intros H [|c' pre] suf Hs; simpl in Hs.
    + by subst.
    + injection Hs as -> ->. by eapply IH.
Qed.

(** Every reported match is a substring of the text that the pattern
    matches in full. *)
Lemma re_findall_sound p text e :
  e ∈ re_findall p text → substring e text ∧ matches p e.
Proof.
  intros (pre & suf & -> & H)%findall_from_elem.
  split; [by exists pre, suf|].
  apply sre_match_sound in H as [_ H]. by rewrite take_app_length in H.
Qed.

(** Nothing is reported exactly when no substring is in the language. *)
Lemma re_findall_nil p text :
  re_findall p text = [] ↔ ∀ w, substring w text → ¬ matches p w.
Proof.
  split.
  - intros H w (pre & suf & ->) Hw.
    destruct (sre_match_complete p w suf Hw) as [m Hm].
    by rewrite (findall_from_nil_inv _ _ H pre (w ++ suf)) in Hm.
  - intros H. apply findall_from_nil. intros pre suf ->.
    destruct (sre_match p suf) as [m|] eqn:E; [|done].
    apply sre_match_sound in E as [Hm E].
    destruct (H (take m suf)); [|done].
    exists pre, (drop m suf). by rewrite take_drop.
Qed.

(** ** The email pattern *)

Lemma in_alpha c : in_charset alpha c = true ↔ is_letter c.
Proof.
  unfold in_charset, alpha, is_letter. simpl.
  rewrite !orb_true_iff, !andb_true_iff, !N.leb_le. intuition lia.
Qed.

Lemma in_local_chars c : in_charset local_chars c = true ↔ local_char c.
Proof.
  unfold in_charset, local_chars, alpha, local_char, is_letter, is_digit.
  change (str "._%+-") with [46; 95; 37; 43; 45]. simpl.
  rewrite !orb_true_iff, !andb_true_iff, !N.leb_le.
  rewrite !elem_of_cons, elem_of_nil. intuition lia.
Qed.

Lemma in_domain_chars c : in_charset domain_chars c = true ↔ domain_char c.
Proof.
  unfold in_charset, domain_chars, alpha, domain_char, is_letter, is_digit.
  change (str ".-") with [46; 45]. simpl.
  rewrite !orb_true_iff, !andb_true_iff, !N.leb_le.
  rewrite !elem_of_cons, elem_of_nil. intuition lia.
Qed.

Lemma in_lit c u :
  Forall (in_cls (lit c)) u ∧ (1 ≤ length u)%nat ∧ (length u ≤ 1)%nat ↔
  u = [c].
Proof.
  assert (∀ x, in_cls (lit c) x ↔ x = c) as Hc.
  { intros x. unfold in_cls, in_charset. simpl.
    rewrite orb_true_iff, andb_true_iff, !N.leb_le. intuition (lia || done). }
  split.
  - intros (Hu & H1 & H2). destruct u as [|x [|y u]]; simpl in *; try lia.
    apply Forall_singleton, Hc in Hu. by subst.
  - intros ->. split; [|simpl; lia]. by apply Forall_singleton, Hc.
Qed.

Lemma matches_email e : matches email_pattern e ↔ is_email e.
Proof.
  unfold is_email. change (str "@") with [64]. change (str ".") with [46].
  split.
  - intros (l & v1 & -> & Hl & Hl1 & _ & a & v2 & -> & Ha & Ha1 & Ha2 &
            d & v3 & -> & Hd & Hd1 & _ & o & v4 & -> & Ho & Ho1 & Ho2 &
            t & v5 & -> & Ht & Ht2 & _ & ->).
    pose proof (proj1 (in_lit 64 a) (conj Ha (conj Ha1 Ha2))) as ->.
    pose proof (proj1 (in_lit 46 o) (conj Ho (conj Ho1 Ho2))) as ->.
    simpl in Hl1, Hd1, Ht2.
    exists l, d, t. rewrite app_nil_r.
    split; [done|].
    split; [intros ->; simpl in Hl1; lia|].
    split; [by eapply Forall_impl; [done|]; intros c; apply in_local_chars|].
    split; [intros ->; simpl in Hd1; lia|].
    split; [by eapply Forall_impl; [done|]; intros c; apply in_domain_chars|].
    split; [done|].
    by eapply Forall_impl; [done|]; intros c; apply in_alpha.
  - intros (l & d & t & -> & Hl1 & Hl & Hd1 & Hd & Ht2 & Ht).
    exists l, ([64] ++ d ++ [46] ++ t).
    split; [done|].
    split; [by eapply Forall_impl; [done|]; intros c; apply in_local_chars|].
    split; [destruct l; simpl; [done|lia]|]. split; [done|].
    exists [64], (d ++ [46] ++ t).
    split; [done|]. pose proof (proj2 (in_lit 64 [64]) eq_refl) as (?&?&?).
    do 3 (split; [done|]).
    exists d, ([46] ++ t).
    split; [done|].
    split; [by eapply Forall_impl; [done|]; intros c; apply in_domain_chars|].
    split; [destruct d; simpl; [done|lia]|]. split; [done|].
    exists [46], t.
    split; [done|]. pose proof (proj2 (in_lit 46 [46]) eq_refl) as (?&?&?).
    do 3 (split; [done|]).
    exists t, []. rewrite app_nil_r.
    split; [done|].
    split; [by eapply Forall_impl; [done|]; intros c; apply in_alpha|].
    done.
Qed.

(** Matched addresses are ASCII, so lowercasing them never consults the
    Unicode tables. *)
Lemma is_letter_ascii c : is_letter c → is_ascii c = true.
Proof. unfold is_letter, is_ascii. rewrite N.ltb_lt. lia. Qed.

Lemma local_char_ascii c : local_char c → is_ascii c = true.
Proof.
  unfold local_char, is_letter, is_digit, is_ascii.
  change (str "._%+-") with [46; 95; 37; 43; 45].
  rewrite !elem_of_cons, elem_of_nil, N.ltb_lt. lia.
Qed.

Lemma domain_char_ascii c : domain_char c → is_ascii c = true.
Proof.
  unfold domain_char, is_letter, is_digit, is_ascii.
  change (str ".-") with [46; 45].
  rewrite !elem_of_cons, elem_of_nil, N.ltb_lt. lia.
Qed.

Lemma is_email_isascii e : is_email e → isascii e = true.
Proof.
  intros (l & d & t & -> & _ & Hl & _ & Hd & _ & Ht).
  unfold isascii. rewrite !forallb_app. simpl.
  rewrite !andb_true_iff, !forallb_forall. repeat split.
  - intros c Hc%list_elem_of_In. apply local_char_ascii.
    by eapply Forall_forall in Hl.
  - intros c Hc%list_elem_of_In. apply domain_char_ascii.
    by eapply Forall_forall in Hd.
  - intros c Hc%list_elem_of_In. apply is_letter_ascii.
    by eapply Forall_forall in Ht.
Qed.

Lemma py_lower_ascii U s : isascii s = true → py_lower U s = map ascii_lower s.
Proof. unfold py_lower. by intros ->. Qed.

(** ** The order on strings *)

Lemma str_ltb_lex a b : str_ltb a b = true ↔ lex_lt a b.
Proof.
  revert b. induction a as [|x a IH]; intros [|y b]; simpl.
  - split; [done|inversion 1].
  - split; [constructor|done].
  - split; [done|inversion 1].
  - destruct (x <? y) eqn:Exy; [apply N.ltb_lt in Exy|apply N.ltb_ge in Exy].
    { split; [by constructor|done]. }
    destruct (y <? x) eqn:Eyx; [apply N.ltb_lt in Eyx|apply N.ltb_ge in Eyx].
    { split; [done|]. inversion 1; subst; lia. }
    assert (x = y) as -> by lia. rewrite IH.
    split; [by constructor|]. inversion 1; subst; [lia|done].
Qed.

Lemma str_ltb_total a b : str_ltb b a = false → lex_le a b.
Proof.
  revert b. induction a as [|x a IH]; intros [|y b]; simpl; try done.
  - by left.
  - right. constructor.
  - destruct (y <? x) eqn:Eyx; [done|apply N.ltb_ge in Eyx].
    destruct (x <? y) eqn:Exy; [apply N.ltb_lt in Exy|apply N.ltb_ge in Exy].
    { intros _. right. by constructor. }
    assert (x = y) as -> by lia.
    intros [->|H]%IH; [by left|]. right. by constructor.
Qed.

Lemma lex_lt_trans a b c : lex_lt a b → lex_lt b c → lex_lt a c.
Proof.
  intros Hab. revert c. induction Hab; inversion 1; subst;
    try constructor; auto; lia.
Qed.

Lemma lex_lt_irrefl a : ¬ lex_lt a a.
Proof. induction a; inversion 1; subst; [lia|done]. Qed.

Lemma lex_le_trans a b c : lex_le a b → lex_le b c → lex_le a c.
Proof.
  intros [->|Hab] [->|Hbc]; [by left|by right|by right|].
  right. by eapply lex_lt_trans.
Qed.

(** ** [sorted] *)

Section SortedFacts.
Context {A : Type} (key : A → pystr).

Lemma sorted_cons x l : sorted key (x :: l) = insert_by key x (sorted key l).
Proof. done. Qed.

Lemma insert_by_perm x l : insert_by key x l ≡ₚ x :: l.
Proof.
  induction l as [|y l IH]; simpl; [done|].
  destruct (str_ltb (key y) (key x)); [|done].
  rewrite IH. apply Permutation_swap.
Qed.

Lemma sorted_perm l : sorted key l ≡ₚ l.
Proof.
  induction l as [|x l IH]; [done|].
  by rewrite sorted_cons, insert_by_perm, IH.
Qed.

Lemma insert_by_sorted x l :
  StronglySorted (key_le key) l →
  StronglySorted (key_le key) (insert_by key x l).
Proof.
  induction 1 as [|y l Hl IH Hy]; simpl.
  - by repeat constructor.
  - destruct (str_ltb (key y) (key x)) eqn:E.
    + constructor; [done|]. rewrite insert_by_perm. constructor; [|done].
      right. by apply str_ltb_lex.
    + apply str_ltb_total in E.
      constructor; [by constructor|]. constructor; [done|].
      eapply Forall_impl; [done|]. intros z Hz. by eapply lex_le_trans.
Qed.

Lemma sorted_sorted l : StronglySorted (key_le key) (sorted key l).
Proof.
  induction l as [|x l IH]; [constructor|].
  rewrite sorted_cons. by apply insert_by_sorted.
Qed.

Lemma insert_by_ext (key' : A → pystr) x l :
  key x = key' x → Forall (λ y, key y = key' y) l →
  insert_by key x l = insert_by key' x l.
Proof.
  intros Hx. induction 1 as [|y l Hy Hl IH]; simpl; [done|].
  by rewrite Hx, Hy, IH.
Qed.

Lemma sorted_ext (key' : A → pystr) l :
  Forall (λ y, key y = key' y) l → sorted key l = sorted key' l.
Proof.
  induction 1 as [|x l Hx Hl IH]; [done|].
  change (insert_by key x (sorted key l) = insert_by key' x (sorted key' l)).
  rewrite <-IH. apply insert_by_ext; [done|].
  by rewrite sorted_perm.
Qed.
End SortedFacts.

(** ** The deduplication loop *)

Section Dedup.
Variable U : unicode_case.

Lemma dedup_step_snoc emails x :
  foldl (dedup_step U) (∅, []) (emails ++ [x]) =
  dedup_step U (foldl (dedup_step U) (∅, []) emails) x.
Proof. by rewrite foldl_snoc. Qed.

Lemma first_of_key_snoc (emails : list pystr) x r :
  first_of_key (py_lower U) emails r →
  first_of_key (py_lower U) (emails ++ [x]) r.
Proof.
  intros (i & Hi & Hfirst). exists i.
  pose proof (lookup_lt_Some _ _ _ Hi) as Hlt.
  split; [by rewrite lookup_app_l|].
  intros j e Hj. rewrite lookup_app_l by lia. by apply Hfirst.
Qed.

(** Loop invariant: [seen] holds the lowercased forms of [unique_emails],
    which are pairwise distinct; every email read so far has its lowercased
    form in [seen]; and each kept entry is the first email read with that
    lowercased form. *)
Lemma dedup_inv emails :
  let st := foldl (dedup_step U) (∅, []) emails in
  (∀ k, k ∈ st.1 ↔ k ∈ py_lower U <$> st.2) ∧
  NoDup (py_lower U <$> st.2) ∧
  (∀ e, e ∈ emails → py_lower U e ∈ st.1) ∧
  (∀ r, r ∈ st.2 → first_of_key (py_lower U) emails r).
Proof.
  induction emails as [|x emails IH] using rev_ind; simpl.
  { split; [intros k; by rewrite elem_of_empty, elem_of_nil|].
    split; [constructor|]. split; by intros ? ?%elem_of_nil. }
  rewrite dedup_step_snoc.
  destruct (foldl (dedup_step U) (∅, []) emails) as [seen uniq].
  simpl in IH. destruct IH as (Hseen & Hnd & Hall & Hfirst).
  unfold dedup_step. simpl. case_decide as Hx; simpl.
  - split; [|split; [|split]].
    + intros k. rewrite fmap_app, elem_of_app, elem_of_union, Hseen.
      simpl. rewrite elem_of_singleton, list_elem_of_singleton. tauto.
    + rewrite fmap_app. apply NoDup_app. split; [done|].
      split; [|apply NoDup_singleton].
      intros k Hk ->%list_elem_of_singleton. by apply Hx, Hseen.
    + intros e [He| ->%list_elem_of_singleton]%elem_of_app.
      * apply elem_of_union_r. by apply Hall.
      * by apply elem_of_union_l, elem_of_singleton.
    + intros r [Hr| ->%list_elem_of_singleton]%elem_of_app.
      * by apply first_of_key_snoc, Hfirst.
      * exists (length emails). split; [by rewrite list_lookup_middle|].
        intros j e Hj. rewrite lookup_app_l by done.
        intros He%list_elem_of_lookup_2 Heq. apply Hx.
        rewrite <-Heq. by apply Hall.
  - split; [done|]. split; [done|]. split.
    + intros e [He| ->%list_elem_of_singleton]%elem_of_app; auto.
    + intros r Hr. by apply first_of_key_snoc, Hfirst.
Qed.

Lemma extract_perm text :
  extract_emails_from_text U text ≡ₚ
  unique_of U (re_findall email_pattern text).
Proof. apply sorted_perm. Qed.

Lemma unique_of_first emails r :
  r ∈ unique_of U emails → first_of_key (py_lower U) emails r.
Proof. apply dedup_inv. Qed.

Lemma unique_of_subseteq emails r : r ∈ unique_of U emails → r ∈ emails.
Proof.
  intros (i & Hi & _)%unique_of_first. by eapply list_elem_of_lookup_2.
Qed.

Lemma unique_of_NoDup emails : NoDup (py_lower U <$> unique_of U emails).
Proof. apply dedup_inv. Qed.

Lemma unique_of_complete emails e :
  e ∈ emails → py_lower U e ∈ py_lower U <$> unique_of U emails.
Proof.
  intros He. pose proof (dedup_inv emails) as (Hseen & _ & Hall & _).
  by apply Hseen, Hall.
Qed.

Lemma extract_elem text r :
  r ∈ extract_emails_from_text U text →
  r ∈ re_findall email_pattern text.
Proof. rewrite extract_perm. apply unique_of_subseteq. Qed.
End Dedup.

(** ** [extract_emails_from_text] *)

Section Extract.
Variable U : unicode_case.

Lemma re_findall_email text e :
  e ∈ re_findall email_pattern text → is_email e ∧ substring e text.
Proof.
  intros [Hsub Hm]%re_findall_sound. split; [by apply matches_email|done].
Qed.

Lemma unique_of_nil emails : unique_of U emails = [] ↔ emails = [].
Proof.
  split; [|by intros ->].
  destruct emails as [|e emails]; [done|]. intros Hnil.
  pose proof (unique_of_complete U (e :: emails) e) as H.
  rewrite Hnil in H. by apply elem_of_nil in H; [|left].
Qed.

(** C1: every address returned by [extract_emails_from_text] is a full match
    of the email pattern ([local@domain.tld] with the three character
    classes of the regular expression) and occurs in the text as a contiguous
    substring. *)
Theorem extract_emails_are_matches text :
  Forall (λ e, is_email e ∧ substring e text)
    (extract_emails_from_text U text).
Proof.
  apply Forall_forall. intros e He.
  by apply re_findall_email, (extract_elem U).
Qed.

(** C2: the lowercased forms of the returned addresses are pairwise
    distinct: no two entries of the result are equal when compared without
    regard to case. *)
Theorem extract_emails_no_duplicates text :
  NoDup (py_lower U <$> extract_emails_from_text U text).
Proof. rewrite extract_perm. apply unique_of_NoDup. Qed.

(** C3: the returned sequence is in ascending order of the lowercased
    addresses: each entry's lowercased form is lexicographically at most
    that of every later entry. *)
Theorem extract_emails_sorted text :
  StronglySorted (key_le (py_lower U)) (extract_emails_from_text U text).
Proof. apply sorted_sorted. Qed.

(** C4: for every match found by the scan, the result holds an entry with
    the same lowercased form, and that entry is, casing included, the first
    match of the scan with this lowercased form; on the text of the
    specification the two spellings of [a@b.co] give the single entry
    [a@b.co]. *)
Theorem extract_emails_keeps_first_casing text :
  Forall (λ e, ∃ r,
      r ∈ extract_emails_from_text U text ∧
      py_lower U r = py_lower U e ∧
      first_of_key (py_lower U) (re_findall email_pattern text) r)
    (re_findall email_pattern text) ∧
  extract_emails_from_text U (str "Contact us at a@b.co or A@B.CO for info")
    = [str "a@b.co"].
Proof.
  split; [|by vm_compute].
  apply Forall_forall. intros e He.
  apply (unique_of_complete U) in He as (r & Hr & Hin)%list_elem_of_fmap.
  exists r. split; [by rewrite extract_perm|]. split; [done|].
  by apply unique_of_first.
Qed.

(** C7: [extract_emails_from_text] returns a sequence for every text, and
    the sequence is empty exactly when no substring of the text is a full
    match of the email pattern; [no emails here] gives the empty sequence. *)
Theorem extract_emails_total text :
  ∃ out, extract_emails_from_text U text = out ∧
    (out = [] ↔ ∀ w, substring w text → ¬ is_email w) ∧
    extract_emails_from_text U (str "no emails here") = [].
Proof.
  eexists. split; [done|]. split; [|by vm_compute].
  transitivity (re_findall email_pattern text = []).
  - rewrite <-(unique_of_nil (re_findall email_pattern text)).
    split.
    + intros H. apply Permutation_nil_r. by rewrite <-extract_perm, H.
    + intros H. apply Permutation_nil_r. by rewrite extract_perm, H.
  - rewrite re_findall_nil. by setoid_rewrite matches_email.
Qed.

(** C10: every match found by the scan has its lowercased form among the
    lowercased entries of the result, and the result has as many entries as
    the matches have distinct lowercased forms. *)
Theorem extract_emails_complete text :
  Forall (λ e, py_lower U e ∈ py_lower U <$> extract_emails_from_text U text)
    (re_findall email_pattern text) ∧
  length (extract_emails_from_text U text) =
    size (list_to_set (C := gset pystr)
            (py_lower U <$> re_findall email_pattern text)).
Proof.
  split.
  - apply Forall_forall. intros e He. rewrite extract_perm.
    by apply unique_of_complete.
  - rewrite extract_perm.
    rewrite <-(length_fmap (py_lower U)), <-(size_list_to_set (C := gset pystr))
      by apply unique_of_NoDup.
    f_equal. apply set_eq. intros k. rewrite !elem_of_list_to_set.
    split.
    + intros (r & -> & Hr)%list_elem_of_fmap.
      by apply list_elem_of_fmap_2, (unique_of_subseteq U).
    + intros (e & -> & He)%list_elem_of_fmap. by apply unique_of_complete.
Qed.
End Extract.

(** The loop and the sort consult the case tables on matched addresses
    only, which are ASCII. *)
Lemma foldl_dedup_ext U1 U2 emails st :
  Forall (λ e, isascii e = true) emails →
  foldl (dedup_step U1) st emails = foldl (dedup_step U2) st emails.
Proof.
  intros H. revert st. induction H as [|e emails He _ IH]; intros st; simpl;
    [done|].
  rewrite IH. f_equal. unfold dedup_step.
  by rewrite !(py_lower_ascii _ e).
Qed.

(** C8: two invocations of [extract_emails_from_text] on the same text
    return the same sequence, whatever the Unicode case tables in effect at
    either invocation. *)
Theorem extract_emails_deterministic U1 U2 text :
  extract_emails_from_text U1 text = extract_emails_from_text U2 text.
Proof.
  assert (Forall (λ e, isascii e = true) (re_findall email_pattern text))
    as Hascii.
  { apply Forall_forall. intros e [He _]%re_findall_email.
    by apply is_email_isascii. }
  unfold extract_emails_from_text, unique_of.
  rewrite (foldl_dedup_ext U1 U2) by done.
  apply sorted_ext, Forall_forall. intros e He%(unique_of_subseteq U2).
  rewrite Forall_forall in Hascii. by rewrite !py_lower_ascii by auto.
Qed.

(** ** [str.split] *)

Lemma py_split_head sep s : py_split sep s !! 0%nat = Some (before sep s).
Proof.
  induction s as [|c s IH]; simpl; [done|].
  destruct (c =? sep); [done|].
  destruct (py_split sep s); simpl in *; [done|]. by injection IH as ->.
Qed.

Lemma py_split_no_sep sep s : sep ∉ s → py_split sep s = [s].
Proof.
  induction s as [|c s IH]; simpl; [done|].
  intros [Hc Hs]%not_elem_of_cons.
  destruct (N.eqb_spec c sep) as [->|_]; [done|]. by rewrite IH.
Qed.

Lemma py_split_second sep s :
  sep ∈ s → py_split sep s !! 1%nat = Some (before sep (after sep s)).
Proof.
  induction s as [|c s IH]; simpl; [by intros ?%elem_of_nil|].
  intros Hin. destruct (N.eqb_spec c sep) as [->|Hne]; simpl.
  - apply py_split_head.
  - apply elem_of_cons in Hin as [->|Hin]; [done|].
    specialize (IH Hin). by destruct (py_split sep s).
Qed.

Lemma before_eq sep s : sep ∉ s → before sep s = s.
Proof.
  induction s as [|c s IH]; simpl; [done|].
  intros [Hc Hs]%not_elem_of_cons.
  destruct (N.eqb_spec c sep) as [->|_]; [done|]. by rewrite IH.
Qed.

Lemma py_capitalize_ascii U s :
  isascii s = true →
  py_capitalize U s =
    match s with
    | [] => []
    | c :: r => ascii_upper c :: map ascii_lower r
    end.
Proof. unfold py_capitalize. by intros ->. Qed.

(** ** [extract_company_from_email] *)

Section Company.
Variable U : unicode_case.

(** On a string the [try] block fails in one way only: there is no second
    segment when the email has no [@]. *)
Lemma company_body_without_at email :
  64 ∉ email → company_body U email = Raise IndexError.
Proof.
  intros H. unfold company_body. by rewrite py_split_no_sep.
Qed.

Lemma company_body_with_at email :
  64 ∈ email →
  company_body U email =
    Ok (py_capitalize U (before 46 (before 64 (after 64 email)))).
Proof.
  intros H. unfold company_body, py_index.
  rewrite py_split_second by done. simpl.
  by rewrite py_split_head.
Qed.

(** A domain without a dot is not a failure: it is the company token. *)
Lemma extract_company_dotless email :
  64 ∈ email → 46 ∉ before 64 (after 64 email) →
  extract_company_from_email U email =
    py_capitalize U (before 64 (after 64 email)).
Proof.
  intros Hat Hdot. unfold extract_company_from_email.
  rewrite company_body_with_at by done. simpl. by rewrite before_eq.
Qed.

(** C5, amended: when the email has no [@], or when any step of the [try]
    block raises, [extract_company_from_email] returns the empty string and
    no error reaches the caller.  A domain without a dot raises nothing: the
    whole domain, capitalized, is returned. *)
Theorem extract_company_failure email :
  (64 ∉ email ∨ (∃ e, company_body U email = Raise e) →
   extract_company_from_email U email = []) ∧
  (64 ∈ email → 46 ∉ before 64 (after 64 email) →
   extract_company_from_email U email =
     py_capitalize U (before 64 (after 64 email))).
Proof.
  split; [|apply extract_company_dotless].
  unfold extract_company_from_email.
  intros [H|[e H]]; [rewrite company_body_without_at by done|rewrite H]; done.
Qed.

(** With the domain taken as the text between the first [@] and the next
    one (or the end of the string): when it has a dot, the label is the part
    before its first dot, capitalized. *)
Lemma extract_company_between_ats email :
  64 ∈ email → 46 ∈ before 64 (after 64 email) →
  extract_company_from_email U email =
    py_capitalize U (before 46 (before 64 (after 64 email))) ∧
  (isascii (before 46 (before 64 (after 64 email))) = true →
   extract_company_from_email U email =
     match before 46 (before 64 (after 64 email)) with
     | [] => []
     | c :: r => ascii_upper c :: map ascii_lower r
     end).
Proof.
  intros Hat _. unfold extract_company_from_email.
  rewrite company_body_with_at by done. simpl.
  split; [done|]. apply py_capitalize_ascii.
Qed.

(** ** The CSV text *)

Lemma foldl_write_email_row output emails :
  foldl (write_email_row U) output emails =
  output ++
    mjoin ((λ e, csv_record [e; extract_company_from_email U e]) <$> emails).
Proof.
  revert output. induction emails as [|e emails IH]; intros output; simpl.
  - by rewrite app_nil_r.
  - rewrite IH. unfold write_email_row, writerow.
    by rewrite <-(assoc_L (++)).
Qed.

(** A field without comma, quote, CR or LF is written as it is. *)
Lemma csv_record_plain a b :
  existsb csv_special a = false → existsb csv_special b = false →
  csv_record [a; b] = a ++ [44] ++ b ++ [13; 10].
Proof.
  intros Ha Hb. unfold csv_record, csv_field. simpl. rewrite Ha, Hb.
  destruct a; simpl; by rewrite <-?(assoc_L (++)).
Qed.

End Company.

(** ** UTF-8 encoding *)

Lemma to_N_byte_of_ascii a : Byte.to_N (byte_of_ascii a) = N_of_ascii a.
Proof. by destruct a as [[|] [|] [|] [|] [|] [|] [|] [|]]. Qed.

Lemma to_N_byte_of_N n : n < 256 → Byte.to_N (byte_of_N n) = n.
Proof.
  intros H. unfold byte_of_N.
  by rewrite to_N_byte_of_ascii, N_ascii_embedding.
Qed.

Lemma utf8_encode_char_is_Some c :
  is_Some (utf8_encode_char c) ↔ encodable c.
Proof.
  unfold utf8_encode_char, encodable.
  destruct (N.ltb_spec c 128); [split; [lia|by eexists]|].
  destruct (N.ltb_spec c 2048); [split; [lia|by eexists]|].
  destruct (N.leb_spec 55296 c), (N.leb_spec c 57343); simpl;
    try (split; [by intros [? ?]|lia]);
    (destruct (N.ltb_spec c 65536); [split; [lia|by eexists]|]);
    (destruct (N.leb_spec c 1114111); [split; [lia|by eexists]|]);
    (split; [by intros [? ?]|lia]).
Qed.

Lemma utf8_encode_cons c s :
  utf8_encode (c :: s) =
    b ← utf8_encode_char c; r ← utf8_encode s; Some (b ++ r).
Proof.
  unfold utf8_encode. simpl.
  destruct (utf8_encode_char c); simpl; [|done].
  by destruct (mapM utf8_encode_char s).
Qed.

Lemma utf8_encode_is_Some s :
  is_Some (utf8_encode s) ↔ Forall encodable s.
Proof.
  induction s as [|c s IH]; [by split; [constructor|eexists]|].
  rewrite utf8_encode_cons, Forall_cons, <-IH, <-utf8_encode_char_is_Some.
  destruct (utf8_encode_char c), (utf8_encode s); simpl; split;
    try (by intros [? ?]); try (by intros [[? ?] [? ?]]);
    intros; try split; by eexists.
Qed.

Local Ltac div64 c q r :=
  pose proof (N.div_mod' c 64) as ?;
  pose proof (N.mod_lt c 64 ltac:(lia)) as ?;
  remember (c / 64) as q; remember (c mod 64) as r.

(** Settle the test of the conditional at the head of the goal. *)
Local Ltac head_if v :=
  match goal with
  | |- (if ?b then _ else _) = _ =>
      let H := fresh in
      assert (b = v) as H
        by (unfold is_cont;
            repeat match goal with
            | |- context [?x =? ?y] => destruct (N.eqb_spec x y)
            end;
            rewrite ?andb_true_iff, ?andb_false_iff, ?N.leb_le, ?N.leb_gt,
              ?N.ltb_lt, ?N.ltb_ge; lia);
      rewrite H; clear H
  end.

Lemma utf8_decode_encode_char c b rest :
  utf8_encode_char c = Some b →
  utf8_decode (b ++ rest) = cons c <$> utf8_decode rest.
Proof.
  unfold utf8_encode_char.
  destruct (N.ltb_spec c 128) as [Ha|Ha].
  { intros [= <-]. cbn [app utf8_decode].
    rewrite to_N_byte_of_N by lia. by head_if true. }
  div64 c q1 r1.
  destruct (N.ltb_spec c 2048) as [Hb|Hb].
  { intros [= <-]. cbn [app utf8_decode].
    rewrite !to_N_byte_of_N by lia.
    head_if false. head_if true. head_if true.
    do 2 f_equal. lia. }
  div64 q1 q2 r2.
  destruct ((55296 <=? c) && (c <=? 57343)) eqn:Es; [done|].
  apply andb_false_iff in Es. rewrite !N.leb_gt in Es.
  destruct (N.ltb_spec c 65536) as [Hc|Hc].
  { intros [= <-]. cbn [app utf8_decode].
    rewrite !to_N_byte_of_N by lia.
    head_if false. head_if false. head_if true. head_if true.
    do 2 f_equal. lia. }
  div64 q2 q3 r3.
  destruct (N.leb_spec c 1114111) as [Hd|Hd]; [|done].
  intros [= <-]. cbn [app utf8_decode].
  rewrite !to_N_byte_of_N by lia.
  head_if false. head_if false. head_if false. head_if true. head_if true.
  do 2 f_equal. lia.
Qed.

(** Decoding gives back what was encoded. *)
Lemma utf8_decode_encode s body :
  utf8_encode s = Some body → utf8_decode body = Some s.
Proof.
  revert body. induction s as [|c s IH]; intros body.
  - by intros [= <-].
  - rewrite utf8_encode_cons.
    destruct (utf8_encode_char c) as [b|] eqn:Eb; [|done]. simpl.
    destruct (utf8_encode s) as [r|] eqn:Er; [|done]. simpl.
    intros [= <-]. rewrite (utf8_decode_encode_char c b r Eb).
    by rewrite (IH r).
Qed.

Lemma utf8_encode_ascii s :
  isascii s = true → utf8_encode s = Some (byte_of_N <$> s).
Proof.
  unfold isascii. induction s as [|c s IH]; [done|]. simpl.
  intros [Hc Hs]%andb_true_iff. rewrite utf8_encode_cons, IH by done.
  unfold utf8_encode_char, is_ascii in *. by rewrite Hc.
Qed.

(** ** The bytes of [download_csv_direct] *)

Lemma csv_record_pair a b :
  csv_record [a; b] = csv_field a ++ 44 :: csv_field b ++ [13; 10].
Proof.
  unfold csv_record. simpl. by destruct a; rewrite <-(assoc_L (++)).
Qed.

Lemma Forall_csv_field (P : N → Prop) f :
  P 34 → Forall P (csv_field f) ↔ Forall P f.
Proof.
  intros HP. unfold csv_field. destruct (existsb csv_special f); [|done].
  rewrite Forall_cons, Forall_app, Forall_singleton, Forall_flat_map.
  split.
  - intros (_ & H & _). eapply Forall_impl; [done|]. simpl. intros c.
    destruct (N.eqb_spec c 34) as [->|]; [done|].
    simpl. intros Hc. by inversion Hc.
  - intros H. split; [done|]. split; [|done].
    eapply Forall_impl; [done|]. simpl. intros c Hc.
    destruct (c =? 34); by repeat constructor.
Qed.

Lemma encodable_ascii c : c < 128 → encodable c.
Proof. unfold encodable. lia. Qed.

Lemma Forall_csv_record_pair a b :
  Forall encodable (csv_record [a; b]) ↔
  Forall encodable a ∧ Forall encodable b.
Proof.
  assert (encodable 34 ∧ encodable 44 ∧ encodable 13 ∧ encodable 10)
    as (? & ? & ? & ?) by (unfold encodable; lia).
  rewrite csv_record_pair, Forall_app, Forall_cons, Forall_app,
    !Forall_cons, !Forall_csv_field by done.
  split; [tauto|]. intros [? ?]. repeat split; auto.
Qed.

Lemma csv_header_encodable : Forall encodable (csv_record csv_header).
Proof.
  change (csv_record csv_header)
    with (str "Email,Company/Domain" ++ [13; 10]).
  vm_compute str. repeat constructor; unfold encodable; lia.
Qed.

Section CsvBytes.
Variable U : unicode_case.

Lemma csv_text_encodable emails :
  Forall encodable (csv_text U emails) ↔
  Forall (λ e, Forall encodable e ∧
               Forall encodable (extract_company_from_email U e)) emails.
Proof.
  unfold csv_text. rewrite Forall_app.
  transitivity (Forall encodable
    (mjoin ((λ e, csv_record [e; extract_company_from_email U e])
              <$> emails))).
  { pose proof csv_header_encodable. tauto. }
  induction emails as [|e emails IH]; csimpl.
  - split; constructor.
  - by rewrite Forall_app, Forall_cons, IH, Forall_csv_record_pair.
Qed.

Lemma download_csv_direct_eq emails :
  download_csv_direct U emails = utf8_encode (csv_text U emails).
Proof.
  unfold download_csv_direct, csv_text. by rewrite foldl_write_email_row.
Qed.

(** C9, amended: the bytes [download_csv_direct] sends are the UTF-8
    encoding of the CSV text made of the header record
    [Email,Company/Domain] followed by one record per input email, in order,
    whose fields are the email and [extract_company_from_email] of it.  They
    exist exactly when no email and no label holds a surrogate code point
    (otherwise the encoding raises and nothing is sent), and they decode back
    to that text.  For the list [x@y.com] they are the two lines
    [Email,Company/Domain] and [x@y.com,Y], each ended by CR LF. *)
Theorem download_csv_direct_rows emails :
  download_csv_direct U emails = utf8_encode (csv_text U emails) ∧
  (is_Some (download_csv_direct U emails) ↔
   Forall (λ e, Forall encodable e ∧
                Forall encodable (extract_company_from_email U e)) emails) ∧
  (∀ body, download_csv_direct U emails = Some body →
           utf8_decode body = Some (csv_text U emails)) ∧
  csv_record csv_header = str "Email,Company/Domain" ++ [13; 10] ∧
  download_csv_direct U [str "x@y.com"] =
    Some (byte_of_N <$>
            str "Email,Company/Domain" ++ [13; 10] ++
            str "x@y.com,Y" ++ [13; 10]).
Proof.
  split; [apply download_csv_direct_eq|]. split; [|split; [|by vm_compute]].
  - by rewrite download_csv_direct_eq, utf8_encode_is_Some,
      csv_text_encodable.
  - intros body. rewrite download_csv_direct_eq. apply utf8_decode_encode.
Qed.
End CsvBytes.

(** ** Concrete runs *)

(** Membership in a literal string. *)
Local Ltac by_decide := apply (bool_decide_unpack _); vm_compute; exact I.

(** The domain class takes [b.co.A] greedily and gives characters back until
    a dot followed by two letters is found; the scan resumes after [a@b.co]. *)
Example re_findall_backtracks :
  re_findall email_pattern (str "a@b.co.A@B.CO x@y.z1") =
    [str "a@b.co"; str ".A@B.CO"].
Proof. by vm_compute. Qed.

(** Entries come out ordered by lowercased form, each in the casing of its
    first occurrence. *)
Example extract_emails_run :
  extract_emails_from_text ascii_only
    (str "Zed@x.org, bob@Mail.Example.COM; BOB@mail.example.com <amy@x.org>") =
    [str "amy@x.org"; str "bob@Mail.Example.COM"; str "Zed@x.org"].
Proof. by vm_compute. Qed.

(** A field with a comma or a quote is quoted, and its quotes doubled. *)
Example csv_record_quotes :
  csv_record [[97; 44; 98]; [34]] =
    [34; 97; 44; 98; 34; 44; 34; 34; 34; 34; 13; 10].
Proof. by vm_compute. Qed.

(** [extract_company_from_email("no-at-sign")] is the empty string, and
    [extract_company_from_email("user@localhost")] is the capitalized domain. *)
Lemma extract_company_no_at_sign :
  (64 ∉ str "no-at-sign") ∧
  extract_company_from_email ascii_only (str "no-at-sign") = [] ∧
  64 ∈ str "user@localhost" ∧
  (46 ∉ before 64 (after 64 (str "user@localhost"))) ∧
  extract_company_from_email ascii_only (str "user@localhost")
    = str "Localhost".
Proof.
  assert (64 ∉ str "no-at-sign") as Hno by by_decide.
  assert (64 ∈ str "user@localhost") as Hat by by_decide.
  assert (46 ∉ before 64 (after 64 (str "user@localhost"))) as Hdot
    by by_decide.
  split; [done|]. split.
  { apply (proj1 (extract_company_failure ascii_only _)). by left. }
  split; [done|]. split; [done|].
  rewrite (proj2 (extract_company_failure ascii_only _) Hat Hdot).
  by vm_compute.
Defined.

(** C5 as stated fails: the domain of [user@localhost] has no dot, and the
    result is [Localhost], not the empty string. *)
Lemma extract_company_dotless_domain :
  (46 ∉ after 64 (str "user@localhost")) ∧
  extract_company_from_email ascii_only (str "user@localhost")
    = str "Localhost" ∧
  extract_company_from_email ascii_only (str "user@localhost") ≠ [].
Proof. split; [by_decide|]. split; by vm_compute. Qed.

(** With a second [@] the label comes from the piece between the first two:
    for [a@b@c.com] it is [B], not the capitalized [b@c] found before the
    first dot of all that follows the first [@]. *)
Lemma extract_company_second_at :
  64 ∈ str "a@b@c.com" ∧
  46 ∈ after 64 (str "a@b@c.com") ∧
  py_capitalize ascii_only (before 46 (after 64 (str "a@b@c.com")))
    = str "B@c" ∧
  extract_company_from_email ascii_only (str "a@b@c.com") = str "B" ∧
  extract_company_from_email ascii_only (str "a@b@c.com") ≠
    py_capitalize ascii_only (before 46 (after 64 (str "a@b@c.com"))).
Proof.
  split; [by_decide|]. split; [by_decide|]. repeat split; by vm_compute.
Qed.

(** * Further properties of the code *)

(** ** [allowed_file] *)

Lemma rsplit_last_None sep s : sep ∉ s → rsplit_last sep s = None.
Proof.
  induction s as [|c s IH]; simpl; [done|].
  intros [Hc Hs]%not_elem_of_cons. rewrite IH by done.
  by destruct (N.eqb_spec c sep).
Qed.

Lemma rsplit_last_app sep stem ext :
  sep ∉ ext → rsplit_last sep (stem ++ sep :: ext) = Some (stem, ext).
Proof.
  intros Hext. induction stem as [|c stem IH]; simpl.
  - by rewrite rsplit_last_None, N.eqb_refl.
  - by rewrite IH.
Qed.

Lemma rsplit_last_is_Some sep s : sep ∈ s → is_Some (rsplit_last sep s).
Proof.
  induction s as [|c s IH]; simpl; [by intros ?%elem_of_nil|].
  intros Hin. destruct (rsplit_last sep s) as [[a b]|] eqn:E; [eauto|].
  destruct (N.eqb_spec c sep) as [->|Hne]; [eauto|].
  apply elem_of_cons in Hin as [->|Hin]; [done|].
  destruct (IH Hin) as [? ?]; done.
Qed.

(** X1: only the text after the last dot of the file name decides: a name
    [stem.ext], where [ext] has no dot, is accepted exactly when the
    lowercased [ext] is one of [ALLOWED_EXTENSIONS], whatever [stem] is (it
    may be empty or contain dots of its own). *)
Theorem allowed_file_last_extension U stem ext :
  46 ∉ ext →
  allowed_file U (stem ++ 46 :: ext) =
    Ok (bool_decide (py_lower U ext ∈ ALLOWED_EXTENSIONS)).
Proof.
  intros Hext. unfold allowed_file.
  rewrite decide_False.
  - unfold py_rsplit1. by rewrite rsplit_last_app.
  - intros H. apply H, elem_of_app. right. by left.
Qed.

(** X2: [allowed_file] never raises, the index [1] being taken only when
    the name has a dot, and every name it rejects has a dot. *)
Theorem allowed_file_total U filename :
  ∃ b, allowed_file U filename = Ok b ∧ (b = false → 46 ∈ filename).
Proof.
  unfold allowed_file. case_decide as Hdot.
  - by exists true.
  - destruct (rsplit_last_is_Some _ _ Hdot) as [[a b] Hab].
    unfold py_rsplit1. rewrite Hab. simpl. eauto.
Qed.

(** ** The company label of an extracted address *)

Lemma before_app sep a b : before sep (a ++ sep :: b) = before sep a.
Proof.
  induction a as [|c a IH]; simpl; [by rewrite N.eqb_refl|].
  destruct (c =? sep); [done|]. by rewrite IH.
Qed.

Lemma after_app sep a b : sep ∉ a → after sep (a ++ sep :: b) = b.
Proof.
  induction a as [|c a IH]; simpl; [by rewrite N.eqb_refl|].
  intros [Hc Ha]%not_elem_of_cons.
  destruct (N.eqb_spec c sep) as [->|_]; [done|]. by apply IH.
Qed.

Lemma isascii_before sep s : isascii s = true → isascii (before sep s) = true.
Proof.
  unfold isascii. induction s as [|c s IH]; simpl; [done|].
  intros [Hc Hs]%andb_true_iff. destruct (c =? sep); [done|]. simpl.
  by rewrite Hc, IH.
Qed.

Lemma isascii_after sep s : isascii s = true → isascii (after sep s) = true.
Proof.
  unfold isascii. induction s as [|c s IH]; simpl; [done|].
  intros [Hc Hs]%andb_true_iff. destruct (c =? sep); [done|]. by apply IH.
Qed.

Lemma extract_company_eq U email :
  extract_company_from_email U email =
    if decide (64 ∈ email)
    then py_capitalize U (before 46 (before 64 (after 64 email)))
    else [].
Proof.
  unfold extract_company_from_email. case_decide as Hat.
  - by rewrite company_body_with_at.
  - by rewrite company_body_without_at.
Qed.

Lemma local_char_not_at l : Forall local_char l → 64 ∉ l.
Proof.
  intros Hl Hin. rewrite Forall_forall in Hl. apply Hl in Hin. revert Hin.
  unfold local_char, is_letter, is_digit.
  change (str "._%+-") with [46; 95; 37; 43; 45].
  rewrite !elem_of_cons, elem_of_nil. lia.
Qed.

Lemma domain_char_not_at d : Forall domain_char d → 64 ∉ d.
Proof.
  intros Hd Hin. rewrite Forall_forall in Hd. apply Hd in Hin. revert Hin.
  unfold domain_char, is_letter, is_digit.
  change (str ".-") with [46; 45].
  rewrite !elem_of_cons, elem_of_nil. lia.
Qed.

Lemma is_letter_domain_char c : is_letter c → domain_char c.
Proof. by left. Qed.

(** The shape of a full match seen from its [@]. *)
Lemma is_email_after e :
  is_email e →
  ∃ l d t, e = l ++ 64 :: d ++ 46 :: t ∧ 64 ∈ e ∧
    after 64 e = d ++ 46 :: t ∧ before 64 (after 64 e) = after 64 e ∧
    d ≠ [] ∧ Forall domain_char d ∧ isascii (before 46 d) = true.
Proof.
  intros He. pose proof (is_email_isascii _ He) as Hascii.
  destruct He as (l & d & t & -> & _ & Hl & Hd1 & Hd & _ & Ht).
  change (str "@") with [64] in *. change (str ".") with [46] in *.
  simpl in *. exists l, d, t.
  assert (after 64 (l ++ 64 :: d ++ 46 :: t) = d ++ 46 :: t) as Hafter
    by by apply after_app, local_char_not_at.
  split; [done|].
  split; [apply elem_of_app; right; by left|].
  split; [done|]. rewrite Hafter.
  split.
  { apply before_eq. intros [Hin|Hin]%elem_of_app.
    - by apply domain_char_not_at in Hin.
    - apply elem_of_cons in Hin as [?|Hin]; [done|].
      eapply domain_char_not_at; [|done].
      eapply Forall_impl; [done|]. apply is_letter_domain_char. }
  split; [done|]. split; [done|].
  apply (isascii_after 64) in Hascii. rewrite Hafter in Hascii.
  apply (isascii_before 46) in Hascii. by rewrite before_app in Hascii.
Qed.

Section CompanyOfExtracted.
Variable U : unicode_case.

(** X3: for every address returned by [extract_emails_from_text] the [try]
    block of [extract_company_from_email] completes without raising, and the
    label is the text between the [@] and the first dot after it, its first
    character in upper case and the others in lower case. *)
Theorem company_of_extracted text :
  Forall (λ e, company_body U e =
                 Ok (ascii_capitalize (before 46 (after 64 e))))
    (extract_emails_from_text U text).
Proof.
  apply Forall_forall. intros e [He _]%(extract_elem U)%re_findall_email.
  destruct (is_email_after e He)
    as (l & d & t & _ & Hat & Hafter & Hbefore & _ & _ & Hascii).
  rewrite company_body_with_at by done. f_equal.
  rewrite Hbefore, Hafter, before_app. by apply py_capitalize_ascii.
Qed.

(** X4: the label of a returned address is empty exactly when a dot
    follows its [@] at once, as in [a@.co.uk], which the pattern accepts. *)
Theorem company_of_extracted_empty text :
  Forall (λ e, extract_company_from_email U e = [] ↔
               ∃ rest, after 64 e = 46 :: rest)
    (extract_emails_from_text U text) ∧
  extract_emails_from_text U (str "a@.co.uk") = [str "a@.co.uk"].
Proof.
  split; [|by vm_compute].
  apply Forall_forall. intros e [He _]%(extract_elem U)%re_findall_email.
  destruct (is_email_after e He)
    as (l & d & t & _ & Hat & Hafter & Hbefore & Hd1 & _ & Hascii).
  rewrite extract_company_eq, decide_True by done.
  rewrite Hbefore, Hafter, before_app, py_capitalize_ascii by done.
  destruct d as [|c d]; [done|]. simpl.
  destruct (N.eqb_spec c 46) as [->|Hc]; simpl.
  - split; [eauto|done].
  - split; [done|]. intros [rest [= ? _]]. done.
Qed.
End CompanyOfExtracted.

(** ** Case does not change the label *)

Lemma ascii_lower_sep c sep :
  sep < 65 → (ascii_lower c =? sep) = (c =? sep).
Proof.
  intros Hsep. unfold ascii_lower.
  destruct (N.leb_spec 65 c), (N.leb_spec c 90); simpl;
    destruct (N.eqb_spec c sep), (N.eqb_spec (c + 32) sep); lia || done.
Qed.

Lemma before_map_lower sep e :
  sep < 65 → before sep (map ascii_lower e) = map ascii_lower (before sep e).
Proof.
  intros Hsep. induction e as [|c e IH]; simpl; [done|].
  rewrite ascii_lower_sep by done. destruct (c =? sep); [done|].
  simpl. by rewrite IH.
Qed.

Lemma after_map_lower sep e :
  sep < 65 → after sep (map ascii_lower e) = map ascii_lower (after sep e).
Proof.
  intros Hsep. induction e as [|c e IH]; simpl; [done|].
  rewrite ascii_lower_sep by done. by destruct (c =? sep).
Qed.

Lemma elem_of_map_lower sep e :
  sep < 65 → sep ∈ map ascii_lower e ↔ sep ∈ e.
Proof.
  intros Hsep. induction e as [|c e IH]; simpl; [done|].
  rewrite !elem_of_cons, IH.
  pose proof (ascii_lower_sep c sep Hsep) as H.
  destruct (N.eqb_spec (ascii_lower c) sep), (N.eqb_spec c sep);
    try done; intuition congruence.
Qed.

Lemma isascii_map_lower s : isascii s = true → isascii (map ascii_lower s) = true.
Proof.
  unfold isascii. rewrite !forallb_forall. intros H c Hc.
  apply in_map_iff in Hc as (c' & <- & Hc'). apply H in Hc'.
  unfold is_ascii, ascii_lower in *. apply N.ltb_lt in Hc'. apply N.ltb_lt.
  destruct (N.leb_spec 65 c'), (N.leb_spec c' 90); simpl; lia.
Qed.

Lemma ascii_lower_idemp c : ascii_lower (ascii_lower c) = ascii_lower c.
Proof.
  unfold ascii_lower.
  destruct (N.leb_spec 65 c), (N.leb_spec c 90); simpl;
    destruct (N.leb_spec 65 (c + 32)), (N.leb_spec (c + 32) 90); simpl;
    try lia;
    destruct (N.leb_spec 65 c), (N.leb_spec c 90); simpl; lia.
Qed.

Lemma ascii_upper_lower c : ascii_upper (ascii_lower c) = ascii_upper c.
Proof.
  unfold ascii_lower, ascii_upper.
  destruct (N.leb_spec 65 c), (N.leb_spec c 90); simpl;
    destruct (N.leb_spec 97 (c + 32)), (N.leb_spec (c + 32) 122); simpl;
    destruct (N.leb_spec 97 c), (N.leb_spec c 122); simpl; lia.
Qed.

Lemma py_capitalize_map_lower U s :
  isascii s = true → py_capitalize U (map ascii_lower s) = py_capitalize U s.
Proof.
  intros Hs. rewrite !py_capitalize_ascii by auto using isascii_map_lower.
  destruct s as [|c r]; simpl; [done|].
  rewrite ascii_upper_lower. f_equal.
  rewrite map_map. apply map_ext. intros x. apply ascii_lower_idemp.
Qed.

Lemma extract_company_map_lower U e :
  isascii e = true →
  extract_company_from_email U (map ascii_lower e) =
  extract_company_from_email U e.
Proof.
  intros He. rewrite !extract_company_eq.
  assert (64 < 65) as H64 by lia. assert (46 < 65) as H46 by lia.
  destruct (decide (64 ∈ e)) as [Hat|Hat].
  - rewrite decide_True by by apply elem_of_map_lower.
    rewrite after_map_lower, !before_map_lower by done.
    apply py_capitalize_map_lower.
    by apply isascii_before, isascii_before, isascii_after.
  - rewrite decide_False; [done|]. by rewrite elem_of_map_lower.
Qed.

(** X5: two ASCII emails with the same lowercased form get the same
    company label; the label of a deduplicated entry does not depend on
    which casing of the address was kept. *)
Theorem extract_company_ignores_case U e1 e2 :
  isascii e1 = true → isascii e2 = true →
  py_lower U e1 = py_lower U e2 →
  extract_company_from_email U e1 = extract_company_from_email U e2.
Proof.
  intros H1 H2. rewrite !py_lower_ascii by done. intros Heq.
  by rewrite <-(extract_company_map_lower U e1),
    <-(extract_company_map_lower U e2), Heq.
Qed.

(** ** Separators cut the scan *)

Lemma count_run_sep cs lim s c rest :
  in_charset cs c = false →
  count_run cs lim (s ++ c :: rest) = count_run cs lim s.
Proof.
  intros Hc. revert lim. induction s as [|x s IH]; intros lim; simpl.
  - rewrite Hc. by destruct lim as [[|m]|].
  - destruct lim as [[|m]|]; [done| |];
      destruct (in_charset cs x); simpl; by rewrite ?IH.
Qed.

Lemma backtrack_ext k k' lo s s' n :
  (∀ j, (j ≤ n)%nat → k (drop j s) = k' (drop j s')) →
  backtrack k lo s n = backtrack k' lo s' n.
Proof.
  induction n as [|n IH]; intros H; simpl.
  - by rewrite (H 0%nat).
  - rewrite (H (S n)) by done. rewrite IH; [done|].
    intros j Hj. apply H. lia.
Qed.

Lemma sre_match_sep p s c rest :
  outside p c → sre_match p (s ++ c :: rest) = sre_match p s.
Proof.
  intros Hp. revert s. induction Hp as [|it p Hc Hp IH]; intros s; simpl;
    [done|].
  rewrite count_run_sep by done. apply backtrack_ext. intros j Hj.
  pose proof (count_run_le (cls it) (rmax it) s).
  rewrite drop_app_le by lia. apply IH.
Qed.

Lemma findall_from_sep p s c rest skip :
  outside p c → (skip ≤ length s)%nat →
  findall_from p (s ++ c :: rest) skip =
  findall_from p s skip ++ findall_from p rest 0.
Proof.
  intros Hp. revert skip. induction s as [|x s IH]; intros skip Hskip.
  - simpl in Hskip. assert (skip = 0%nat) as -> by lia.
    pose proof (sre_match_sep p [] c rest Hp) as Hnil. simpl in *.
    rewrite Hnil.
    destruct (sre_match p []) as [m|] eqn:E; [|done].
    apply sre_match_sound in E as [Hm _]. simpl in Hm.
    by assert (m = 0%nat) as -> by lia.
  - destruct skip as [|k]; simpl in *.
    + pose proof (sre_match_sep p (x :: s) c rest Hp) as Hxs. simpl in Hxs.
      rewrite Hxs.
      destruct (sre_match p (x :: s)) as [m|] eqn:E.
      * pose proof (sre_match_sound _ _ _ E) as [Hm _]. simpl in Hm.
        rewrite IH by lia. destruct m as [|m]; [done|]. simpl.
        by rewrite take_app_le by lia.
      * apply IH. lia.
    + apply IH. lia.
Qed.

Lemma separator_outside c : separator c → outside email_pattern c.
Proof.
  intros [Hl Hat].
  assert (in_charset local_chars c = false) as H1.
  { apply not_true_is_false. by rewrite in_local_chars. }
  assert (in_charset domain_chars c = false) as H2.
  { apply not_true_is_false. rewrite in_domain_chars. intros Hd. apply Hl.
    revert Hd. unfold domain_char, local_char.
    change (str ".-") with [46; 45].
    change (str "._%+-") with [46; 95; 37; 43; 45].
    rewrite !elem_of_cons, !elem_of_nil. tauto. }
  assert (in_charset alpha c = false) as H3.
  { apply not_true_is_false. rewrite in_alpha. intros Hd. apply Hl.
    by left. }
  assert (∀ x, x ≠ c → in_charset [(x, x)] c = false) as H4.
  { intros x Hx. unfold in_charset. simpl.
    rewrite orb_false_r, andb_false_iff, !N.leb_gt. lia. }
  assert (c ≠ 46) as Hdot.
  { intros ->. apply Hl. right. right.
    change (str "._%+-") with [46; 95; 37; 43; 45]. by left. }
  repeat constructor; simpl; auto.
  - by apply (H4 64).
  - by apply (H4 46).
Qed.

(** X6: a character outside the classes of the pattern (a space, a comma,
    a line break, any non-ASCII character, ...) cuts the scan: the matches
    of [t1 c t2] are those of [t1] followed by those of [t2], so no
    address spans such a character and each part is scanned on its own. *)
Theorem re_findall_cut_at_separator t1 c t2 :
  separator c →
  re_findall email_pattern (t1 ++ c :: t2) =
  re_findall email_pattern t1 ++ re_findall email_pattern t2.
Proof.
  intros Hc. unfold re_findall. apply findall_from_sep; [|lia].
  by apply separator_outside.
Qed.

(** ** A text that is one address *)

Lemma sre_match_cons it p s :
  sre_match (it :: p) s =
  backtrack (sre_match p) (rmin it) s (count_run (cls it) (rmax it) s).
Proof. done. Qed.

Lemma backtrack_hit k lo s n m :
  (lo ≤ n)%nat → k (drop n s) = Some m →
  backtrack k lo s n = Some (n + m)%nat.
Proof.
  intros Hlo Hk. destruct n as [|n]; simpl in *.
  - destruct (0 <? lo)%nat eqn:E; [apply Nat.ltb_lt in E; lia|].
    by rewrite Hk.
  - destruct (S n <? lo)%nat eqn:E; [apply Nat.ltb_lt in E; lia|].
    by rewrite Hk.
Qed.

Lemma backtrack_down k lo s n j m :
  (lo ≤ j)%nat → (j ≤ n)%nat →
  (∀ i, (j < i ≤ n)%nat → k (drop i s) = None) →
  k (drop j s) = Some m → backtrack k lo s n = Some (j + m)%nat.
Proof.
  intros Hlo Hjn Hnone Hk. induction n as [|n IH].
  - assert (j = 0%nat) as -> by lia. by apply backtrack_hit.
  - destruct (decide (j = S n)) as [->|Hne]; [by apply backtrack_hit|].
    simpl. destruct (S n <? lo)%nat eqn:E; [apply Nat.ltb_lt in E; lia|].
    rewrite Hnone by lia. apply IH; [lia|]. intros i Hi. apply Hnone. lia.
Qed.

Lemma count_run_all cs u :
  Forall (λ c, in_charset cs c = true) u → count_run cs None u = length u.
Proof.
  induction 1 as [|c u Hc _ IH]; simpl; [done|]. by rewrite Hc, IH.
Qed.

Lemma count_run_lit c rest : count_run [(c, c)] (Some 1%nat) (c :: rest) = 1%nat.
Proof.
  simpl. unfold in_charset. simpl. rewrite N.leb_refl. simpl.
  by destruct rest.
Qed.

Lemma sre_match_lit_miss c p x :
  (∀ y r, x = y :: r → y ≠ c) → sre_match (lit c :: p) x = None.
Proof.
  intros Hx. rewrite sre_match_cons.
  assert (count_run (cls (lit c)) (rmax (lit c)) x = 0%nat) as ->; [|done].
  destruct x as [|y r]; [done|]. simpl.
  assert ((c <=? y) && (y <=? c) = false) as ->; [|done].
  rewrite andb_false_iff, !N.leb_gt.
  specialize (Hx y r eq_refl). lia.
Qed.

Lemma sre_match_tld t :
  Forall is_letter t → (2 ≤ length t)%nat →
  sre_match [at_least 2 alpha] t = Some (length t).
Proof.
  intros Ht Ht2. rewrite sre_match_cons. cbn [cls rmin rmax at_least].
  rewrite count_run_all
    by (eapply Forall_impl; [done|]; intros c; apply in_alpha).
  rewrite (backtrack_hit _ _ _ _ 0%nat); [by rewrite Nat.add_0_r|done|done].
Qed.

Lemma sre_match_dot_tld t :
  Forall is_letter t → (2 ≤ length t)%nat →
  sre_match [lit 46; at_least 2 alpha] (46 :: t) = Some (S (length t)).
Proof.
  intros Ht Ht2. rewrite sre_match_cons. cbn [cls rmin rmax lit].
  rewrite count_run_lit.
  by rewrite (backtrack_hit _ _ _ _ (length t)); [|lia|apply sre_match_tld].
Qed.

Lemma is_letter_not_dot t : Forall is_letter t → 46 ∉ t.
Proof.
  intros Ht Hin. rewrite Forall_forall in Ht. apply Ht in Hin.
  unfold is_letter in Hin. lia.
Qed.

Lemma sre_match_domain d t :
  Forall domain_char d → d ≠ [] → Forall is_letter t → (2 ≤ length t)%nat →
  sre_match [plus domain_chars; lit 46; at_least 2 alpha] (d ++ 46 :: t)
    = Some (length d + S (length t))%nat.
Proof.
  intros Hd Hd1 Ht Ht2. rewrite sre_match_cons. cbn [cls rmin rmax plus].
  rewrite count_run_all.
  2:{ apply Forall_app. split.
      - eapply Forall_impl; [done|]. intros c. apply in_domain_chars.
      - constructor; [done|]. eapply Forall_impl; [done|].
        intros c Hc. by apply in_domain_chars, is_letter_domain_char. }
  apply (backtrack_down _ _ _ _ (length d)).
  - destruct d; simpl; [done|lia].
  - rewrite length_app. lia.
  - intros i Hi. apply sre_match_lit_miss. intros y r Hdrop ->.
    rewrite drop_app_ge in Hdrop by lia.
    destruct (i - length d)%nat as [|k] eqn:Ek; [lia|]. simpl in Hdrop.
    apply (is_letter_not_dot t Ht).
    rewrite <-(take_drop k t), Hdrop. apply elem_of_app. right. by left.
  - rewrite drop_app_length. by apply sre_match_dot_tld.
Qed.

Lemma in_local_chars_at : in_charset local_chars 64 = false.
Proof. done. Qed.

Lemma sre_match_email e :
  is_email e → sre_match email_pattern e = Some (length e).
Proof.
  intros (l & d & t & -> & Hl1 & Hl & Hd1 & Hd & Ht2 & Ht).
  change (str "@") with [64]. change (str ".") with [46]. simpl app.
  unfold email_pattern. rewrite sre_match_cons. cbn [cls rmin rmax plus].
  rewrite count_run_sep by apply in_local_chars_at.
  rewrite count_run_all
    by (eapply Forall_impl; [done|]; intros c; apply in_local_chars).
  rewrite (backtrack_hit _ _ _ _ (S (length d + S (length t)))).
  - f_equal. rewrite !length_app. simpl. rewrite length_app. simpl. lia.
  - destruct l; simpl; [done|lia].
  - rewrite drop_app_length, sre_match_cons. cbn [cls rmin rmax lit].
    rewrite count_run_lit.
    by rewrite (backtrack_hit _ _ _ _ (length d + S (length t))%nat);
      [|lia|apply sre_match_domain].
Qed.

Lemma findall_from_match p x s m :
  sre_match p (x :: s) = Some m →
  findall_from p (x :: s) 0 = take m (x :: s) :: findall_from p s (pred m).
Proof. intros H. simpl. by rewrite H. Qed.

Lemma findall_from_skip_all p s :
  sre_match p [] = None → findall_from p s (length s) = [].
Proof. intros H. induction s; simpl; [by rewrite H|done]. Qed.

Lemma re_findall_alone e :
  is_email e → re_findall email_pattern e = [e].
Proof.
  intros He. pose proof (sre_match_email e He) as Hm.
  destruct e as [|x e]; [done|]. unfold re_findall.
  rewrite (findall_from_match _ _ _ _ Hm). simpl length. simpl pred.
  rewrite findall_from_skip_all by done. f_equal.
  by rewrite (take_ge (x :: e)) by (simpl; lia).
Qed.

Lemma re_findall_no_at s : 64 ∉ s → re_findall email_pattern s = [].
Proof.
  intros Hs. apply re_findall_nil. intros w (pre & suf & ->) Hw.
  apply matches_email, is_email_after in Hw as (_ & _ & _ & _ & Hat & _).
  apply Hs. rewrite !elem_of_app. auto.
Qed.

Lemma unique_of_singleton U e : unique_of U [e] = [e].
Proof.
  unfold unique_of, dedup_step. simpl.
  by rewrite decide_True by apply not_elem_of_empty.
Qed.

(** X7: on a text that is exactly one address of the pattern's language,
    [extract_emails_from_text] returns that address and nothing else: the
    greedy scan takes the whole text, not a shorter address inside it. *)
Theorem extract_emails_single_address U e :
  is_email e → extract_emails_from_text U e = [e].
Proof.
  intros He. unfold extract_emails_from_text.
  by rewrite re_findall_alone, unique_of_singleton.
Qed.

(** ** The CSV file of an extraction *)

Lemma domain_char_local c : domain_char c → local_char c.
Proof.
  unfold domain_char, local_char.
  change (str ".-") with [46; 45].
  change (str "._%+-") with [46; 95; 37; 43; 45].
  rewrite !elem_of_cons, !elem_of_nil. tauto.
Qed.

Lemma local_char_dot : local_char 46.
Proof.
  right. right. change (str "._%+-") with [46; 95; 37; 43; 45]. by left.
Qed.

Lemma is_email_chars e :
  is_email e → Forall (λ c, local_char c ∨ c = 64) e.
Proof.
  intros (l & d & t & -> & _ & Hl & _ & Hd & _ & Ht).
  change (str "@") with [64]. change (str ".") with [46]. simpl.
  rewrite !Forall_app, !Forall_cons, !Forall_app, !Forall_cons.
  split; [|split; [|split; [|split]]].
  - eapply Forall_impl; [done|]. by left.
  - by right.
  - eapply Forall_impl; [done|]. intros c Hc. left.
    by apply domain_char_local.
  - left. apply local_char_dot.
  - eapply Forall_impl; [done|]. intros c Hc. left. by left.
Qed.

Lemma local_char_plain c : local_char c ∨ c = 64 → csv_special c = false.
Proof.
  unfold csv_special, local_char, is_letter, is_digit.
  change (str "._%+-") with [46; 95; 37; 43; 45].
  rewrite !elem_of_cons, elem_of_nil, !orb_false_iff, !N.eqb_neq. lia.
Qed.

Lemma existsb_false {A} (f : A → bool) l :
  Forall (λ x, f x = false) l → existsb f l = false.
Proof. induction 1 as [|x l Hx _ IH]; simpl; [done|]. by rewrite Hx, IH. Qed.

Lemma Forall_before (P : N → Prop) sep s :
  Forall P s → Forall P (before sep s).
Proof.
  induction 1 as [|c s Hc _ IH]; simpl; [done|].
  destruct (c =? sep); by constructor.
Qed.

Lemma domain_char_upper c :
  domain_char c →
  csv_special (ascii_upper c) = false ∧ ascii_upper c ≠ 64.
Proof.
  unfold domain_char, is_letter, is_digit, csv_special, ascii_upper.
  change (str ".-") with [46; 45].
  rewrite !elem_of_cons, elem_of_nil, !orb_false_iff, !N.eqb_neq.
  destruct (N.leb_spec 97 c), (N.leb_spec c 122); simpl; lia.
Qed.

Lemma domain_char_lower c :
  domain_char c →
  csv_special (ascii_lower c) = false ∧ ascii_lower c ≠ 64.
Proof.
  unfold domain_char, is_letter, is_digit, csv_special, ascii_lower.
  change (str ".-") with [46; 45].
  rewrite !elem_of_cons, elem_of_nil, !orb_false_iff, !N.eqb_neq.
  destruct (N.leb_spec 65 c), (N.leb_spec c 90); simpl; lia.
Qed.

Lemma ascii_capitalize_plain s :
  Forall domain_char s →
  Forall (λ c, csv_special c = false ∧ c ≠ 64) (ascii_capitalize s).
Proof.
  destruct 1 as [|c s Hc Hs]; simpl; [done|].
  constructor; [by apply domain_char_upper|].
  apply Forall_fmap. eapply Forall_impl; [done|].
  intros x Hx. by apply domain_char_lower.
Qed.

Section CsvOfExtraction.
Variable U : unicode_case.

Lemma extract_company_email e :
  is_email e →
  ∃ d, Forall domain_char d ∧
    extract_company_from_email U e = ascii_capitalize (before 46 d).
Proof.
  intros He. destruct (is_email_after e He)
    as (l & d & t & _ & Hat & Hafter & Hbefore & _ & Hd & Hascii).
  exists d. split; [done|].
  rewrite extract_company_eq, decide_True by done.
  rewrite Hbefore, Hafter, before_app. by apply py_capitalize_ascii.
Qed.

Lemma extract_company_email_plain e :
  is_email e →
  existsb csv_special (extract_company_from_email U e) = false ∧
  64 ∉ extract_company_from_email U e.
Proof.
  intros (d & Hd & ->)%extract_company_email.
  pose proof (ascii_capitalize_plain _ (Forall_before _ 46 _ Hd)) as H.
  split.
  - apply existsb_false. eapply Forall_impl; [done|]. by intros c [? _].
  - intros Hin. rewrite Forall_forall in H. by apply H in Hin as [_ ?].
Qed.

Lemma csv_record_email e :
  is_email e →
  csv_record [e; extract_company_from_email U e] = csv_line U e.
Proof.
  intros He. apply csv_record_plain.
  - apply existsb_false. eapply Forall_impl; [by apply is_email_chars|].
    apply local_char_plain.
  - by apply extract_company_email_plain.
Qed.

Lemma save_to_csv_emails emails :
  Forall is_email emails →
  save_to_csv U emails =
    str "Email,Company/Domain" ++ [13; 10] ++ mjoin (csv_line U <$> emails).
Proof.
  intros H. unfold save_to_csv. rewrite foldl_write_email_row.
  change (writerow [] csv_header)
    with (str "Email,Company/Domain" ++ [13; 10]).
  rewrite <-(assoc_L (++)). do 3 f_equal.
  apply Forall_fmap_ext_1. eapply Forall_impl; [done|].
  apply csv_record_email.
Qed.

Lemma extract_all_emails text :
  Forall is_email (extract_emails_from_text U text).
Proof.
  apply Forall_forall. intros e He.
  by apply (extract_elem U), re_findall_email in He as [? _].
Qed.

(** X8: in the CSV file written for the result of an extraction no field
    is ever quoted: after the header line comes, for each address in order,
    the line [address,Label] ended by CR LF. *)
Theorem save_to_csv_of_extraction text :
  save_to_csv U (extract_emails_from_text U text) =
    str "Email,Company/Domain" ++ [13; 10] ++
    mjoin ((λ e, e ++ [44] ++ extract_company_from_email U e ++ [13; 10])
             <$> extract_emails_from_text U text).
Proof. apply save_to_csv_emails, extract_all_emails. Qed.
End CsvOfExtraction.

(** ** Extraction of the CSV file gives the addresses back *)

Lemma re_findall_app p s c rest :
  outside p c → re_findall p (s ++ c :: rest) = re_findall p s ++ re_findall p rest.
Proof. intros Hc. unfold re_findall. apply findall_from_sep; [done|lia]. Qed.

Lemma re_findall_cons p c rest :
  outside p c → re_findall p (c :: rest) = re_findall p [] ++ re_findall p rest.
Proof. apply (re_findall_app p []). Qed.

Lemma csv_special_outside c :
  c = 44 ∨ c = 13 ∨ c = 10 → outside email_pattern c.
Proof.
  intros Hc. apply separator_outside. unfold separator, local_char,
    is_letter, is_digit.
  change (str "._%+-") with [46; 95; 37; 43; 45].
  rewrite !elem_of_cons, elem_of_nil. lia.
Qed.

Lemma re_findall_csv_line U e rest :
  is_email e →
  re_findall email_pattern (csv_line U e ++ rest) =
  e :: re_findall email_pattern rest.
Proof.
  intros He. unfold csv_line. rewrite <-!(assoc_L (++)). simpl.
  rewrite re_findall_app by (apply csv_special_outside; auto).
  rewrite re_findall_app by (apply csv_special_outside; auto).
  rewrite re_findall_cons by (apply csv_special_outside; auto).
  rewrite re_findall_alone by done.
  by rewrite re_findall_no_at by by apply extract_company_email_plain.
Qed.

Lemma re_findall_csv_lines U emails :
  Forall is_email emails →
  re_findall email_pattern (mjoin (csv_line U <$> emails)) = emails.
Proof.
  induction 1 as [|e emails He _ IH]; csimpl; [done|].
  by rewrite re_findall_csv_line, IH.
Qed.

Lemma re_findall_save_to_csv U emails :
  Forall is_email emails →
  re_findall email_pattern (save_to_csv U emails) = emails.
Proof.
  intros H. rewrite save_to_csv_emails by done.
  change (str "Email,Company/Domain" ++ [13; 10] ++
            mjoin (csv_line U <$> emails))
    with (str "Email,Company/Domain" ++
            13 :: 10 :: mjoin (csv_line U <$> emails)).
  rewrite (re_findall_app _ (str "Email,Company/Domain") 13)
    by (apply csv_special_outside; auto).
  rewrite re_findall_cons by (apply csv_special_outside; auto).
  rewrite re_findall_csv_lines by done. by vm_compute.
Qed.

Lemma foldl_dedup_fresh U l seen acc :
  NoDup (py_lower U <$> l) →
  (∀ x, x ∈ l → py_lower U x ∉ seen) →
  (foldl (dedup_step U) (seen, acc) l).2 = acc ++ l.
Proof.
  revert seen acc. induction l as [|x l IH]; intros seen acc Hnd Hfresh;
    simpl; [by rewrite app_nil_r|].
  rewrite fmap_cons in Hnd. apply NoDup_cons in Hnd as [Hx Hnd].
  unfold dedup_step at 2. simpl.
  rewrite decide_True by (apply Hfresh; by left).
  rewrite IH, <-(assoc_L (++)); [done|done|].
  intros y Hy [Heq%elem_of_singleton|Hin]%elem_of_union.
  - apply Hx. rewrite <-Heq. by apply list_elem_of_fmap_2.
  - apply (Hfresh y); [by right|done].
Qed.

Lemma unique_of_id U l : NoDup (py_lower U <$> l) → unique_of U l = l.
Proof.
  intros H. unfold unique_of.
  rewrite foldl_dedup_fresh; [done|done|]. intros x _. apply not_elem_of_empty.
Qed.

Lemma lex_lt_not_le a b : lex_lt a b → ¬ lex_le b a.
Proof.
  intros Hab [->|Hba]; [by apply lex_lt_irrefl in Hab|].
  by apply (lex_lt_irrefl a), (lex_lt_trans a b a).
Qed.

Lemma sorted_id {A} (key : A → pystr) l :
  StronglySorted (key_le key) l → sorted key l = l.
Proof.
  induction 1 as [|x l Hl IH Hx]; [done|].
  rewrite sorted_cons, IH. destruct Hx as [|y l Hxy _]; simpl; [done|].
  destruct (str_ltb (key y) (key x)) eqn:E; [|done].
  apply str_ltb_lex in E. by apply lex_lt_not_le in E.
Qed.

(** X9: the CSV file written for the result of an extraction, given back
    to [extract_emails_from_text] as a text, yields the same list of
    addresses: header and labels add no address, and each line gives its
    address back whole. *)
Theorem extract_emails_of_saved_csv U text :
  extract_emails_from_text U
    (save_to_csv U (extract_emails_from_text U text)) =
  extract_emails_from_text U text.
Proof.
  unfold extract_emails_from_text at 1.
  rewrite re_findall_save_to_csv by apply extract_all_emails.
  rewrite unique_of_id.
  - apply sorted_id, sorted_sorted.
  - rewrite extract_perm. apply unique_of_NoDup.
Qed.

(** ** Decoding of an upload *)

Lemma decode_loop_encodings C raw :
  decode_loop C encodings raw =
    Some (default (latin1_decode raw) (utf8_decode raw)).
Proof. unfold encodings. simpl. by destruct (utf8_decode raw). Qed.

Lemma read_content_eq C raw :
  read_content C raw = default (latin1_decode raw) (utf8_decode raw).
Proof. unfold read_content. by rewrite decode_loop_encodings. Qed.

Lemma utf8_decode_ascii raw :
  Forall (λ b, Byte.to_N b < 128) raw →
  utf8_decode raw = Some (latin1_decode raw).
Proof.
  induction 1 as [|b raw Hb _ IH]; [done|].
  cbn [utf8_decode]. apply N.ltb_lt in Hb. rewrite Hb, IH. done.
Qed.

(** X10: the loop over [encodings] always ends at one of its first two
    entries: the text is the strict UTF-8 decoding of the bytes when there is
    one and their Latin-1 reading otherwise, so [cp1252], [iso-8859-1] and
    the [errors='ignore'] fallback are never used; bytes that are all ASCII
    decode to the code points of their values. *)
Theorem read_content_utf8_or_latin1 C raw :
  read_content C raw = default (latin1_decode raw) (utf8_decode raw) ∧
  (∀ C', read_content C' raw = read_content C raw) ∧
  (Forall (λ b, Byte.to_N b < 128) raw →
   read_content C raw = latin1_decode raw).
Proof.
  split; [apply read_content_eq|]. split.
  - intros C'. by rewrite !read_content_eq.
  - intros H. by rewrite read_content_eq, utf8_decode_ascii.
Qed.

Local Ltac bool_to_prop :=
  repeat match goal with
  | H : _ && _ = true |- _ => apply andb_true_iff in H as [? ?]
  | H : (_ <=? _) = true |- _ => apply N.leb_le in H
  | H : (_ <? _) = false |- _ => apply N.ltb_ge in H
  | H : is_cont _ = true |- _ => unfold is_cont in H
  | H : context [if ?a =? ?b then _ else _] |- _ =>
      destruct (N.eqb_spec a b)
  end.

Lemma utf8_decode_skel raw s :
  utf8_decode raw = Some s → skel s (latin1_decode raw).
Proof.
  remember (length raw) as n eqn:Hn. revert raw s Hn.
  induction n as [n IH] using lt_wf_ind. intros raw s ->.
  destruct raw as [|b0 r1]; [intros [= <-]; constructor|].
  cbn [utf8_decode].
  change (latin1_decode (b0 :: r1)) with (Byte.to_N b0 :: latin1_decode r1).
  remember (Byte.to_N b0) as c0 eqn:Hc0. clear Hc0.
  destruct (c0 <? 128) eqn:E0.
  { intros (s1 & Hs1 & ->)%fmap_Some. apply skel_ascii; [done|].
    eapply IH; [|done|done]. simpl. lia. }
  destruct ((194 <=? c0) && (c0 <=? 223)) eqn:E1.
  { destruct r1 as [|b1 r2]; [done|].
    change (latin1_decode (b1 :: r2))
      with (Byte.to_N b1 :: latin1_decode r2).
    remember (Byte.to_N b1) as c1 eqn:Hc1. clear Hc1.
    destruct (is_cont c1) eqn:Ec1; [|done].
    intros (s1 & Hs1 & ->)%fmap_Some. bool_to_prop.
    apply (skel_high _ [c0; c1]).
    - apply N.ltb_ge. lia.
    - done.
    - repeat constructor; apply N.ltb_ge; lia.
    - eapply IH; [|done|done]. simpl. lia. }
  destruct ((224 <=? c0) && (c0 <=? 239)) eqn:E2.
  { destruct r1 as [|b1 [|b2 r3]]; [done|done|].
    change (latin1_decode (b1 :: b2 :: r3))
      with (Byte.to_N b1 :: Byte.to_N b2 :: latin1_decode r3).
    remember (Byte.to_N b1) as c1 eqn:Hc1. clear Hc1.
    remember (Byte.to_N b2) as c2 eqn:Hc2. clear Hc2.
    match goal with |- (if ?b then _ else _) = _ → _ =>
      destruct b eqn:Ec; [|done] end.
    intros (s1 & Hs1 & ->)%fmap_Some. bool_to_prop.
    all: apply (skel_high _ [c0; c1; c2]);
      [apply N.ltb_ge; lia|done
      |repeat constructor; apply N.ltb_ge; lia
      |eapply IH; [|done|done]; simpl; lia]. }
  destruct ((240 <=? c0) && (c0 <=? 244)) eqn:E3; [|done].
  destruct r1 as [|b1 [|b2 [|b3 r4]]]; [done|done|done|].
  change (latin1_decode (b1 :: b2 :: b3 :: r4))
    with (Byte.to_N b1 :: Byte.to_N b2 :: Byte.to_N b3 :: latin1_decode r4).
  remember (Byte.to_N b1) as c1 eqn:Hc1. clear Hc1.
  remember (Byte.to_N b2) as c2 eqn:Hc2. clear Hc2.
  remember (Byte.to_N b3) as c3 eqn:Hc3. clear Hc3.
  match goal with |- (if ?b then _ else _) = _ → _ =>
    destruct b eqn:Ec; [|done] end.
  intros (s1 & Hs1 & ->)%fmap_Some. bool_to_prop.
  all: apply (skel_high _ [c0; c1; c2; c3]);
    [apply N.ltb_ge; lia|done
    |repeat constructor; apply N.ltb_ge; lia
    |eapply IH; [|done|done]; simpl; lia].
Qed.

(** The scan cannot tell two texts with the same skeleton apart. *)
Lemma count_run_skel cs lim s s' :
  (∀ c, in_charset cs c = true → is_ascii c = true) →
  skel s s' → count_run cs lim s = count_run cs lim s'.
Proof.
  intros Hcs Hskel. revert lim.
  induction Hskel as [|c s s' Hc _ IH|c g s s' Hc Hg Hall _ _]; intros lim.
  - done.
  - destruct lim as [[|m]|]; simpl; [done| |];
      destruct (in_charset cs c); by rewrite ?IH.
  - assert (in_charset cs c = false) as Hout.
    { destruct (in_charset cs c) eqn:E; [|done].
      apply Hcs in E. congruence. }
    destruct g as [|x g]; [done|]. apply Forall_cons in Hall as [Hx _].
    assert (in_charset cs x = false) as Hout'.
    { destruct (in_charset cs x) eqn:E; [|done].
      apply Hcs in E. congruence. }
    destruct lim as [[|m]|]; simpl; by rewrite ?Hout, ?Hout'.
Qed.

Lemma skel_drop cs lim s s' j :
  (∀ c, in_charset cs c = true → is_ascii c = true) →
  skel s s' → (j ≤ count_run cs lim s)%nat →
  skel (drop j s) (drop j s').
Proof.
  intros Hcs Hskel. revert lim j.
  induction Hskel as [|c s s' Hc Hs IH|c g s s' Hc Hg Hall Hs _];
    intros lim j Hj.
  - destruct j; constructor.
  - destruct j as [|j]; [by constructor|]. simpl.
    destruct lim as [[|m]|]; simpl in Hj; [lia| |];
      destruct (in_charset cs c); try lia; eapply IH; apply le_S_n, Hj.
  - assert (in_charset cs c = false) as Hout.
    { destruct (in_charset cs c) eqn:E; [|done].
      apply Hcs in E. congruence. }
    assert (j = 0%nat) as ->; [|by constructor].
    destruct lim as [[|m]|]; simpl in Hj; rewrite ?Hout in Hj; lia.
Qed.

Lemma sre_match_skel p s s' :
  ascii_pattern p → skel s s' → sre_match p s = sre_match p s'.
Proof.
  intros Hp. revert s s'. induction Hp as [|it p Hit _ IH]; intros s s' Hs;
    simpl; [done|].
  rewrite <-(count_run_skel _ _ s s') by done.
  apply backtrack_ext. intros j Hj. apply IH. by eapply skel_drop.
Qed.

Lemma skel_take s s' m :
  skel s s' → Forall (λ c, is_ascii c = true) (take m s) →
  take m s = take m s'.
Proof.
  intros Hskel. revert m.
  induction Hskel as [|c s s' Hc _ IH|c g s s' Hc Hg Hall _ _]; intros m Hm.
  - by destruct m.
  - destruct m as [|m]; [done|]. simpl in *.
    apply Forall_cons in Hm as [_ Hm]. by rewrite IH.
  - destruct m as [|m]; [done|]. simpl in Hm.
    apply Forall_cons in Hm as [Hm _]. congruence.
Qed.

Lemma email_pattern_ascii : ascii_pattern email_pattern.
Proof.
  assert (∀ x c, x < 128 → in_charset [(x, x)] c = true → is_ascii c = true)
    as Hlit.
  { intros x c Hx. unfold in_charset, is_ascii. simpl.
    rewrite orb_false_r, andb_true_iff, !N.leb_le, N.ltb_lt. lia. }
  repeat constructor; simpl.
  - intros c Hc. by apply local_char_ascii, in_local_chars.
  - intros c. apply (Hlit 64). lia.
  - intros c Hc. by apply domain_char_ascii, in_domain_chars.
  - intros c. apply (Hlit 46). lia.
  - intros c Hc. by apply is_letter_ascii, in_alpha.
Qed.

Lemma sre_match_email_high c s :
  is_ascii c = false → sre_match email_pattern (c :: s) = None.
Proof.
  intros Hc. unfold email_pattern. rewrite sre_match_cons.
  cbn [cls rmin rmax plus].
  assert (count_run local_chars None (c :: s) = 0%nat) as ->; [|done].
  cbn [count_run]. destruct (in_charset local_chars c) eqn:E; [|done].
  apply in_local_chars, local_char_ascii in E. congruence.
Qed.

Lemma findall_from_high g s :
  Forall (λ x, is_ascii x = false) g →
  findall_from email_pattern (g ++ s) 0 = findall_from email_pattern s 0.
Proof.
  induction 1 as [|x g Hx _ IH]; [done|].
  cbn [app findall_from]. by rewrite sre_match_email_high.
Qed.

Lemma sre_match_email_ascii s m :
  sre_match email_pattern s = Some m →
  Forall (λ c, is_ascii c = true) (take m s).
Proof.
  intros [_ H]%sre_match_sound.
  apply matches_email, is_email_isascii in H.
  apply Forall_forall. intros c Hc%list_elem_of_In.
  unfold isascii in H. by eapply forallb_forall in H.
Qed.

Lemma findall_from_skel s s' skip :
  skel s s' → Forall (λ c, is_ascii c = true) (take skip s) →
  findall_from email_pattern s skip = findall_from email_pattern s' skip.
Proof.
  intros Hskel. revert skip.
  induction Hskel as [|c s s' Hc Hs IH|c g s s' Hc Hg Hall Hs IH];
    intros skip Hskip.
  - done.
  - destruct skip as [|k].
    + pose proof (sre_match_skel _ (c :: s) (c :: s') email_pattern_ascii
                    (skel_ascii _ _ _ Hc Hs)) as Heq.
      cbn [findall_from]. rewrite <-Heq.
      destruct (sre_match email_pattern (c :: s)) as [m|] eqn:E.
      * pose proof (sre_match_email_ascii _ _ E) as Hm.
        rewrite (skel_take (c :: s) (c :: s') m) by (done || by constructor).
        f_equal. apply IH. destruct m as [|m]; [by constructor|].
        simpl in *. by apply Forall_cons in Hm as [_ ?].
      * apply IH. by constructor.
    + cbn [findall_from]. apply IH. simpl in Hskip.
      by apply Forall_cons in Hskip as [_ ?].
  - destruct skip as [|k].
    + cbn [findall_from]. rewrite sre_match_email_high by done.
      rewrite findall_from_high by done. apply IH. by constructor.
    + simpl in Hskip. apply Forall_cons in Hskip as [? _]. congruence.
Qed.

(** X11: the addresses extracted from an upload do not depend on which
    decoding succeeded: they are always those found in the Latin-1 reading
    of the bytes (a multi-byte UTF-8 sequence and its Latin-1 reading are
    both non-ASCII text, which no address contains). *)
Theorem extract_emails_of_upload_latin1 U C raw :
  extract_emails_of_upload U C raw =
  extract_emails_from_text U (latin1_decode raw).
Proof.
  unfold extract_emails_of_upload. rewrite read_content_eq.
  destruct (utf8_decode raw) as [s|] eqn:E; [|done]. simpl.
  unfold extract_emails_from_text, re_findall.
  rewrite (findall_from_skel s (latin1_decode raw));
    [done|by apply utf8_decode_skel|by constructor].
Qed.

(** ** [get_history] *)

Lemma StronglySorted_rev {A} (R : relation A) l :
  StronglySorted R l → StronglySorted (flip R) (rev l).
Proof.
  induction 1 as [|x l _ IH Hx]; simpl; [constructor|].
  apply StronglySorted_app. split; [|split; [done|by repeat constructor]].
  intros x1 x2 Hx1%list_elem_of_In%in_rev%list_elem_of_In
    ->%list_elem_of_singleton.
  rewrite Forall_forall in Hx. by apply Hx.
Qed.

Lemma StronglySorted_sublist {A} (R : relation A) l1 l2 :
  l1 `sublist_of` l2 → StronglySorted R l2 → StronglySorted R l1.
Proof.
  induction 1 as [|x l1 l2 Hsub IH|x l1 l2 Hsub IH]; intros Hs.
  - done.
  - apply StronglySorted_inv in Hs as [Hs Hx]. constructor; [by apply IH|].
    apply Forall_forall. intros y Hy. rewrite Forall_forall in Hx.
    by eapply Hx, elem_of_sublist.
  - apply StronglySorted_inv in Hs as [Hs _]. by apply IH.
Qed.

Lemma sorted_reverse_descending l :
  StronglySorted (λ a b, lex_le b a) (sorted_reverse id l).
Proof. apply (StronglySorted_rev (key_le id)), sorted_sorted. Qed.

Lemma elem_of_sorted_reverse (l : list pystr) x :
  x ∈ sorted_reverse id l ↔ x ∈ l.
Proof.
  unfold sorted_reverse.
  rewrite list_elem_of_In, <-in_rev, <-list_elem_of_In, sorted_perm.
  by rewrite list_elem_of_In, <-in_rev, <-list_elem_of_In.
Qed.

Lemma filter_none {A} (P : A → Prop) `{!∀ x, Decision (P x)} l :
  Forall (λ x, ¬ P x) l → filter P l = [].
Proof.
  induction 1 as [|x l Hx _ IH]; [done|]. by rewrite filter_cons_False.
Qed.

Section HistoryFacts.
Context {J : Type}.
Variable json_load : pystr → option J.
Variable as_dict : J → option (gmap pystr J).
Variable j_str : pystr → J.
Variable j_int : Z → J.

Local Abbreviation entry_of := (history_entry_of json_load as_dict j_str j_int).
Local Abbreviation step := (history_step json_load as_dict j_str j_int).

Lemma history_entry_of_filename jf e : entry_of jf = Some e → h_filename e = jf.
Proof.
  unfold history_entry_of.
  destruct (json_load jf) as [data|]; [|done]. simpl.
  destruct (as_dict data) as [d|]; [|done]. simpl. by intros [= <-].
Qed.

Lemma history_fold_names acc l :
  h_filename <$> foldl step acc l =
  (h_filename <$> acc) ++ filter (λ jf, is_Some (entry_of jf)) l.
Proof.
  revert acc. induction l as [|jf l IH]; intros acc; cbn [foldl].
  - by rewrite filter_nil, app_nil_r.
  - rewrite IH. unfold history_step.
    destruct (entry_of jf) as [e|] eqn:E.
    + rewrite filter_cons_True by by rewrite E.
      rewrite fmap_app, <-(assoc_L (++)). simpl.
      by rewrite (history_entry_of_filename jf e).
    + rewrite filter_cons_False; [done|]. rewrite E. by intros [? ?].
Qed.

Lemma get_history_names files :
  h_filename <$> get_history json_load as_dict j_str j_int (Some files) =
  filter (λ jf, is_Some (entry_of jf))
    (take 20 (sorted_reverse id
       (filter (λ f, py_endswith (str ".json") f = true) files))).
Proof. unfold get_history. by rewrite history_fold_names. Qed.

(** X12: [get_history] returns at most 20 entries, in descending order of
    file name (newest first for the time-stamped names the program writes),
    and every entry is for a file of the listing whose name ends in
    [.json]. *)
Theorem get_history_bounded_sorted files :
  (length (get_history json_load as_dict j_str j_int (Some files)) ≤ 20)%nat ∧
  StronglySorted (λ a b, lex_le b a)
    (h_filename <$> get_history json_load as_dict j_str j_int (Some files)) ∧
  Forall (λ name, py_endswith (str ".json") name = true ∧ name ∈ files)
    (h_filename <$> get_history json_load as_dict j_str j_int (Some files)).
Proof.
  rewrite <-(length_fmap h_filename), get_history_names.
  set (jsons := filter (λ f, py_endswith (str ".json") f = true) files).
  set (P := λ jf, is_Some (entry_of jf)).
  split; [|split].
  - transitivity (length (take 20 (sorted_reverse id jsons)));
      [apply sublist_length, sublist_filter|rewrite length_take; lia].
  - eapply StronglySorted_sublist; [apply sublist_filter|].
    eapply StronglySorted_sublist; [apply sublist_take|].
    apply sorted_reverse_descending.
  - apply Forall_forall. intros name Hname.
    apply list_elem_of_filter in Hname as [_ Hname].
    eapply elem_of_sublist in Hname; [|apply sublist_take].
    rewrite elem_of_sorted_reverse in Hname.
    by apply list_elem_of_filter in Hname.
Qed.

(** X13: the cut at 20 files comes before unreadable files are skipped:
    when none of the 20 greatest [.json] names can be loaded as a [dict],
    the history is empty, whatever older files the folder holds. *)
Theorem get_history_cut_before_skip files :
  (∀ jf, jf ∈ take 20 (sorted_reverse id
            (filter (λ f, py_endswith (str ".json") f = true) files)) →
         entry_of jf = None) →
  get_history json_load as_dict j_str j_int (Some files) = [].
Proof.
  intros H. apply (fmap_nil_inv h_filename). rewrite get_history_names.
  apply filter_none, Forall_forall. intros jf Hjf [e He].
  by rewrite H in He.
Qed.
End HistoryFacts.

(** ** Concrete runs of the further properties *)

Lemma is_email_of_match e :
  sre_match email_pattern e = Some (length e) → is_email e.
Proof.
  intros [_ H]%sre_match_sound. apply matches_email.
  by rewrite take_ge in H by lia.
Qed.

(** [report.final.TXT] is accepted on its last extension alone. *)
Lemma allowed_file_report :
  (46 ∉ str "TXT") ∧
  allowed_file ascii_only (str "report.final" ++ 46 :: str "TXT") = Ok true.
Proof.
  assert (46 ∉ str "TXT") as H by by_decide. split; [done|].
  rewrite (allowed_file_last_extension ascii_only _ _ H). by vm_compute.
Defined.

(** [A@B.CO] and [a@b.co] get the same label. *)
Lemma extract_company_both_casings :
  py_lower ascii_only (str "A@B.CO") = py_lower ascii_only (str "a@b.co") ∧
  extract_company_from_email ascii_only (str "A@B.CO") =
  extract_company_from_email ascii_only (str "a@b.co").
Proof.
  assert (py_lower ascii_only (str "A@B.CO")
          = py_lower ascii_only (str "a@b.co")) as H by by vm_compute.
  split; [done|].
  by apply (extract_company_ignores_case ascii_only); [vm_compute..|].
Defined.

(** Two lines, one address on each. *)
Lemma re_findall_two_lines :
  separator 10 ∧
  re_findall email_pattern (str "a@b.co" ++ 10 :: str "c@d.org") =
    [str "a@b.co"; str "c@d.org"].
Proof.
  assert (separator 10) as H.
  { unfold separator, local_char, is_letter, is_digit.
    change (str "._%+-") with [46; 95; 37; 43; 45].
    rewrite !elem_of_cons, elem_of_nil. lia. }
  split; [done|].
  rewrite (re_findall_cut_at_separator _ _ _ H). by vm_compute.
Defined.

(** [a@b.co.uk] alone is returned whole, not as [a@b.co]. *)
Lemma extract_emails_co_uk :
  is_email (str "a@b.co.uk") ∧
  extract_emails_from_text ascii_only (str "a@b.co.uk") = [str "a@b.co.uk"].
Proof.
  assert (is_email (str "a@b.co.uk")) as H
    by (apply is_email_of_match; by vm_compute).
  split; [done|]. by apply extract_emails_single_address.
Defined.

(** Twenty-one files [xa.json] ... [xu.json] of which only the oldest,
    [xa.json], can be loaded: the history is empty. *)
Lemma get_history_hidden_record :
  str "xa.json" ∈
    ((λ k, [120; 97 + N.of_nat k] ++ str ".json") <$> seq 0 21) ∧
  is_Some (history_entry_of
             (λ jf, if bool_decide (jf = str "xa.json") then Some () else None)
             (λ _, Some ∅) (λ _, ()) (λ _, ()) (str "xa.json")) ∧
  get_history
    (λ jf, if bool_decide (jf = str "xa.json") then Some () else None)
    (λ _, Some ∅) (λ _, ()) (λ _, ())
    (Some ((λ k, [120; 97 + N.of_nat k] ++ str ".json") <$> seq 0 21)) = [].
Proof.
  split; [by_decide|]. split; [by vm_compute; eexists|].
  apply get_history_cut_before_skip. apply Forall_forall.
  vm_compute. repeat (constructor; [reflexivity|]). constructor.
Defined.

(** ** Capitalization by the character tables *)




(** The example of the specification, whatever the case tables. *)
Example extract_company_example U :
  extract_company_from_email U (str "john.doe@Example.com") = str "Example".
Proof. by vm_compute. Qed.


(** C9 as stated fails: an email with a lone surrogate (code point D800)
    has no UTF-8 form, the encoding raises and no CSV is sent. *)
Lemma download_csv_direct_surrogate :
  download_csv_direct ascii_only [[55296; 64; 121; 46; 99; 111; 109]] = None.
Proof. by vm_compute. Qed.
